(** * butteraugli: the comparison tool, colour encodings, EXR streams

    Shallow embedding of [tools/butteraugli_main.cc] (the command-line
    tool: [WritePNG], [RunButteraugli], [main]), with a model over the
    reals of the order-p pooling of a difference map; then the transfer
    functions and colour encodings of
    [lib/jxl/color_encoding_internal.h], and the intensity target and
    the in-memory streams of [jxl/extras/codec_exr.cc].

    The tool is a sequential program with three kinds of effects: lines
    on standard output, lines on standard error, and calls into the
    codec and the butteraugli engine.  It is embedded in a small monad
    that threads the process [World] and can stop at a failed
    [JXL_CHECK]. *)

From Stdlib Require Import String List Bool Arith ZArith NArith QArith Lia.
From Stdlib Require Import Reals Lra.
Import ListNotations.

Close Scope R_scope.
Close Scope Q_scope.
Local Open Scope string_scope.
Local Open Scope list_scope.
Local Open Scope nat_scope.

(** ** The command-line tool *)

Module Tool.

(** Values of C [float] and [double] that the tool passes around are
    kept as rationals: the tool itself does no arithmetic on them, it
    only hands literals and results from one callee to the next. *)
Definition kHfAsymmetry : Q := 0.8.
Definition kPNorm : Q := 3.
Definition kGoodClass : Q := 1.5.
Definition kBadClass : Q := 0.5.

(** Lines written by [printf] and by [fprintf(stderr, ...)], one
    constructor per format string of the source. *)
Inductive StdoutLine : Type :=
| OutDistance (distance : Q)          (* "%.10f\n" *)
| OutPNorm (p pnorm : Q).             (* "%g-norm: %f\n" *)

Inductive StderrLine : Type :=
| ErrUsage (argv0 : string)           (* "Usage: %s <reference> ..." *)
| ErrRead (pathname : string)         (* "Failed to read image from %s\n" *)
| ErrWidth (w1 w2 : N)                (* "Width mismatch: %zu %zu\n" *)
| ErrHeight (h1 h2 : N).              (* "Height mismatch: %zu %zu\n" *)

(** How the process ends: [main] returns a code, or a [JXL_CHECK] fails
    and the process is terminated at the check. *)
Inductive Outcome : Type :=
| Exit (code : Z)
| Abort.

Definition DecoderHints := list (string * string).

Section Collaborators.

(** Pixel data is opaque to the tool. *)
Variables ImageBundle ImageF Image3B PaddedBytes : Type.

(** What the tool reads back from a decoded file. *)
Record CodecInOut : Type := {
  xsize : N;
  ysize : N;
  Main : ImageBundle
}.

(** The functions the tool calls and whose code lives elsewhere. *)
Record Env : Type := {
  SetFromFile : string -> DecoderHints -> option CodecInOut;
  ButteraugliDistance : ImageBundle -> ImageBundle -> Q -> Q * ImageF;
  ComputeDistanceP : ImageF -> Q -> Q;
  ButteraugliFuzzyInverse : Q -> Q;
  CreateHeatMapImage : ImageF -> Q -> Q -> Image3B;
  EncodeImagePNG : Image3B -> bool * PaddedBytes;
  WriteFile : PaddedBytes -> string -> bool
}.

(** Calls into the collaborators, logged in program order. *)
Inductive Call : Type :=
| CSetFromFile (pathname : string) (hints : DecoderHints)
| CDistance (ref dist : ImageBundle) (hf_asymmetry : Q)
| CPNorm (distmap : ImageF) (p : Q)
| CFuzzyInverse (seek : Q)
| CHeatMap (distmap : ImageF) (good bad : Q)
| CEncodePNG (image : Image3B)
| CWriteFile (bytes : PaddedBytes) (filename : string).

(** The process as the tool drives it.  [stdout] is the stream as
    [printf] fills it: the lines handed to it, in order.  The tool never
    flushes it, so these lines sit in the stdio buffer until [main]
    returns; what standard output has received once the process is over
    is [ToolSpec.on_stdout].  [stderr] is not buffered. *)
Record World : Type := {
  stdout : list StdoutLine;
  stderr : list StderrLine;
  calls : list Call
}.

Definition start : World := {| stdout := []; stderr := []; calls := [] |}.

(** *** The monad *)

Inductive Res (A : Type) : Type :=
| Returned (a : A)
| CheckFailed.
Arguments Returned {A} a.
Arguments CheckFailed {A}.

Definition M (A : Type) : Type := World -> Res A * World.

Definition ret {A} (a : A) : M A := fun w => (Returned a, w).

Definition bind {A B} (m : M A) (k : A -> M B) : M B :=
  fun w => match m w with
           | (Returned a, w') => k a w'
           | (CheckFailed, w') => (CheckFailed, w')
           end.

Notation "x <- m ;; k" := (bind m (fun x => k))
  (at level 100, m at next level, right associativity).
Notation "m ;; k" := (bind m (fun _ => k))
  (at level 100, right associativity).

(** [printf]: one more line in the buffer of [stdout]. *)
Definition printf (l : StdoutLine) : M unit :=
  fun w => (Returned tt,
            {| stdout := stdout w ++ [l]; stderr := stderr w; calls := calls w |}).

Definition fprintf_stderr (l : StderrLine) : M unit :=
  fun w => (Returned tt,
            {| stdout := stdout w; stderr := stderr w ++ [l]; calls := calls w |}).

Definition call {A} (c : Call) (result : A) : M A :=
  fun w => (Returned result,
            {| stdout := stdout w; stderr := stderr w; calls := calls w ++ [c] |}).

(** Modelled from the spec: [JXL_CHECK] is a macro of
    [jxl/base/status.h], which is not among the sources.  Following
    sections 5 and 7 (fail fast; the process aborts on a violated
    contract), a false condition ends the process at the check and
    control does not come back to the caller.  What the check itself
    prints is not modelled: [stderr] holds the lines the tool writes. *)
Definition JXL_CHECK (condition : bool) : M unit :=
  fun w => if condition then (Returned tt, w) else (CheckFailed, w).

Variable env : Env.

(** *** [WritePNG] *)

(** [EncodeImagePNG] gives its status and fills [compressed]. *)
Definition WritePNG (image : Image3B) (filename : string) : M bool :=
  encoded <- call (CEncodePNG image) (EncodeImagePNG env image) ;;
  let compressed := snd encoded in
  JXL_CHECK (fst encoded) ;;
  call (CWriteFile compressed filename) (WriteFile env compressed filename).

(** *** [RunButteraugli] *)

Definition empty (s : string) : bool := String.eqb s "".

Definition dec_hints (colorspace_hint : string) : DecoderHints :=
  if negb (empty colorspace_hint) then [("color_space", colorspace_hint)] else [].

Definition read (pathname colorspace_hint : string) : M (option CodecInOut) :=
  let hints := dec_hints colorspace_hint in
  call (CSetFromFile pathname hints) (SetFromFile env pathname hints).

Definition RunButteraugli (pathname1 pathname2 : string)
    (distmap_filename colorspace_hint : string) : M bool :=
  r1 <- read pathname1 colorspace_hint ;;
  match r1 with
  | None => fprintf_stderr (ErrRead pathname1) ;; ret false
  | Some io1 =>
  r2 <- read pathname2 colorspace_hint ;;
  match r2 with
  | None => fprintf_stderr (ErrRead pathname2) ;; ret false
  | Some io2 =>
  if negb (xsize io1 =? xsize io2)%N then
    fprintf_stderr (ErrWidth (xsize io1) (xsize io2)) ;; ret false
  else if negb (ysize io1 =? ysize io2)%N then
    fprintf_stderr (ErrHeight (ysize io1) (ysize io2)) ;; ret false
  else
    dd <- call (CDistance (Main io1) (Main io2) kHfAsymmetry)
               (ButteraugliDistance env (Main io1) (Main io2) kHfAsymmetry) ;;
    let distance := fst dd in
    let distmap := snd dd in
    printf (OutDistance distance) ;;
    let p := kPNorm in
    pnorm <- call (CPNorm distmap p) (ComputeDistanceP env distmap p) ;;
    printf (OutPNorm p pnorm) ;;
    (if negb (empty distmap_filename) then
       good <- call (CFuzzyInverse kGoodClass) (ButteraugliFuzzyInverse env kGoodClass) ;;
       bad <- call (CFuzzyInverse kBadClass) (ButteraugliFuzzyInverse env kBadClass) ;;
       heatmap <- call (CHeatMap distmap good bad)
                       (CreateHeatMapImage env distmap good bad) ;;
       written <- WritePNG heatmap distmap_filename ;;
       JXL_CHECK written
     else ret tt) ;;
    ret true
  end
  end.

(** *** [main] *)

Definition argc (argv : list string) : nat := length argv.

(** [argv[i]] *)
Definition arg (argv : list string) (i : nat) : string := nth i argv "".

Record Options : Type := {
  distmap : string;
  colorspace : string
}.

Definition no_options : Options := {| distmap := ""; colorspace := "" |}.

(** One pass through the body of the [for] loop, the closing [i++]
    included.  The two [if]s are not chained: the second one looks at
    [argv[i]] after the first may have advanced [i]. *)
Definition loop_body (argv : list string) (i : nat) (o : Options) : nat * Options :=
  let '(i, o) :=
    if String.eqb (arg argv i) "--distmap" && (i + 1 <? argc argv)%nat
    then ((i + 1)%nat, {| distmap := arg argv (i + 1)%nat; colorspace := colorspace o |})
    else (i, o) in
  let '(i, o) :=
    if String.eqb (arg argv i) "--colorspace" && (i + 1 <? argc argv)%nat
    then ((i + 1)%nat, {| distmap := distmap o; colorspace := arg argv (i + 1)%nat |})
    else (i, o) in
  ((i + 1)%nat, o).

(** [for (int i = 2; i < argc; i++) ...], started at any [i]. *)
Fixpoint loop (fuel : nat) (argv : list string) (i : nat) (o : Options) : Options :=
  match fuel with
  | O => o
  | S fuel =>
      if (i <? argc argv)%nat
      then let '(i', o') := loop_body argv i o in loop fuel argv i' o'
      else o
  end.

Definition parse_options (argv : list string) : Options :=
  loop (argc argv) argv 2 no_options.

Definition main (argv : list string) : M Z :=
  if (argc argv <? 3)%nat then
    fprintf_stderr (ErrUsage (arg argv 0)) ;; ret 1%Z
  else
    let o := parse_options argv in
    ok <- RunButteraugli (arg argv 1) (arg argv 2) (distmap o) (colorspace o) ;;
    ret (if ok : bool then 0%Z else 1%Z).

(** Running the process from a fresh world. *)
Definition run (argv : list string) : Outcome * World :=
  match main argv start with
  | (Returned code, w) => (Exit code, w)
  | (CheckFailed, w) => (Abort, w)
  end.

End Collaborators.

Arguments xsize {ImageBundle} _.
Arguments ysize {ImageBundle} _.
Arguments Main {ImageBundle} _.
Arguments stdout {ImageBundle ImageF Image3B PaddedBytes} _.
Arguments stderr {ImageBundle ImageF Image3B PaddedBytes} _.
Arguments calls {ImageBundle ImageF Image3B PaddedBytes} _.
Arguments run {ImageBundle ImageF Image3B PaddedBytes} env argv.
Arguments SetFromFile {ImageBundle ImageF Image3B PaddedBytes} _ _ _.
Arguments ButteraugliDistance {ImageBundle ImageF Image3B PaddedBytes} _ _ _ _.
Arguments ComputeDistanceP {ImageBundle ImageF Image3B PaddedBytes} _ _ _.
Arguments ButteraugliFuzzyInverse {ImageBundle ImageF Image3B PaddedBytes} _ _.
Arguments CreateHeatMapImage {ImageBundle ImageF Image3B PaddedBytes} _ _ _ _.
Arguments EncodeImagePNG {ImageBundle ImageF Image3B PaddedBytes} _ _.
Arguments WriteFile {ImageBundle ImageF Image3B PaddedBytes} _ _ _.
Arguments CSetFromFile {ImageBundle ImageF Image3B PaddedBytes} pathname hints.
Arguments CDistance {ImageBundle ImageF Image3B PaddedBytes} ref dist hf_asymmetry.
Arguments CPNorm {ImageBundle ImageF Image3B PaddedBytes} distmap p.
Arguments CFuzzyInverse {ImageBundle ImageF Image3B PaddedBytes} seek.
Arguments CHeatMap {ImageBundle ImageF Image3B PaddedBytes} distmap good bad.
Arguments CEncodePNG {ImageBundle ImageF Image3B PaddedBytes} image.
Arguments CWriteFile {ImageBundle ImageF Image3B PaddedBytes} bytes filename.

End Tool.

(** ** What a run of the tool is expected to look like *)

Module ToolSpec.

Import Tool.

Section Invocation.

Context {ImageBundle ImageF Image3B PaddedBytes : Type}.
Variable env : Env ImageBundle ImageF Image3B PaddedBytes.
Variable argv : list string.

(** The decoder hints both reads are made with. *)
Definition hints : DecoderHints := dec_hints (colorspace (parse_options argv)).

(** What decoding [argv[1]] and [argv[2]] gives. *)
Definition reference : option (CodecInOut ImageBundle) :=
  SetFromFile env (arg argv 1) hints.
Definition distorted : option (CodecInOut ImageBundle) :=
  SetFromFile env (arg argv 2) hints.

(** Too few arguments, an unreadable input, or inputs of different
    sizes. *)
Definition input_failure : Prop :=
  argc argv < 3 \/
  reference = None \/
  distorted = None \/
  exists io1 io2, reference = Some io1 /\ distorted = Some io2 /\
    (xsize io1 <> xsize io2 \/ ysize io1 <> ysize io2).

(** Both inputs were decoded, to images of the same size. *)
Definition comparable (io1 io2 : CodecInOut ImageBundle) : Prop :=
  3 <= argc argv /\
  reference = Some io1 /\ distorted = Some io2 /\
  xsize io1 = xsize io2 /\ ysize io1 = ysize io2.


Definition Call' : Type := Call ImageBundle ImageF Image3B PaddedBytes.

(** The calls of a comparison, up to the p-norm. *)
Definition comparison_calls (io1 io2 : CodecInOut ImageBundle) : list Call' :=
  [CSetFromFile (arg argv 1) hints;
   CSetFromFile (arg argv 2) hints;
   CDistance (Main io1) (Main io2) 0.8%Q;
   CPNorm (snd (ButteraugliDistance env (Main io1) (Main io2) 0.8%Q)) 3%Q].

(** The calls that render and write the heat map. *)
Definition heatmap_image (io1 io2 : CodecInOut ImageBundle) : Image3B :=
  CreateHeatMapImage env (snd (ButteraugliDistance env (Main io1) (Main io2) 0.8%Q))
    (ButteraugliFuzzyInverse env 1.5%Q) (ButteraugliFuzzyInverse env 0.5%Q).

Definition heatmap_calls (io1 io2 : CodecInOut ImageBundle) : list Call' :=
  [CFuzzyInverse 1.5%Q; CFuzzyInverse 0.5%Q;
   CHeatMap (snd (ButteraugliDistance env (Main io1) (Main io2) 0.8%Q))
     (ButteraugliFuzzyInverse env 1.5%Q) (ButteraugliFuzzyInverse env 0.5%Q);
   CEncodePNG (heatmap_image io1 io2)].

Definition score_lines (io1 io2 : CodecInOut ImageBundle) : list StdoutLine :=
  [OutDistance (fst (ButteraugliDistance env (Main io1) (Main io2) 0.8%Q));
   OutPNorm 3 (ComputeDistanceP env
                 (snd (ButteraugliDistance env (Main io1) (Main io2) 0.8%Q)) 3%Q)].







End Invocation.

End ToolSpec.

(** ** Score pooling *)

Module Pooling.

Local Open Scope R_scope.

(** A difference map: rows of samples. *)
Definition DiffMap : Type := list (list R).

(** [v] to the power [p] for a sample [v >= 0] and [p > 0]. *)
Definition power (v p : R) : R :=
  if Rlt_dec 0 v then Rpower v p else 0.

Definition sum (l : list R) : R := fold_right Rplus 0 l.

Definition pixels (m : DiffMap) : list R := concat m.

(** Modelled from the spec: the pooling behind the scalar score is code
    of [butteraugli.cc] and [tools/butteraugli_pnorm.h], of which only
    the declaration [ButteraugliScoreFromDiffmap] and the call
    [ChooseComputeDistanceP()(distmap, p)] are among the sources.  The
    glossary gives the order-p norm as the p-th root of the sum of the
    p-th powers of all pixel values. *)
Definition pnorm (p : R) (m : DiffMap) : R :=
  power (sum (map (fun v => power v p) (pixels m))) (/ p).

(** Modelled from the spec: the score reducer pools with p = 3 in the
    reference configuration. *)
Definition ButteraugliScoreFromDiffmap (m : DiffMap) : R := pnorm 3 m.

(** [A] dominates [B]: same shape, and at every pixel the value of [A]
    is at least that of [B]. *)
Definition dominates (A B : DiffMap) : Prop :=
  Forall2 (Forall2 (fun a b => b <= a)) A B.

End Pooling.

(** ** A concrete environment, for running the tool *)

Module Demo.

Import Tool.

Definition image (w h : N) : CodecInOut unit :=
  {| xsize := w; ysize := h; Main := tt |}.

(** Three files exist: two of 64x64 and one of 128x64.  Nothing can be
    written under [/nonexistent]. *)
Definition files (pathname : string) (hints : DecoderHints) : option (CodecInOut unit) :=
  if String.eqb pathname "ref.png" then Some (image 64 64)
  else if String.eqb pathname "dist.png" then Some (image 64 64)
  else if String.eqb pathname "wide.png" then Some (image 128 64)
  else None.

Definition env : Env unit unit unit unit :=
  {| SetFromFile := files;
     ButteraugliDistance := fun _ _ _ => (1.25%Q, tt);
     ComputeDistanceP := fun _ _ => 0.5%Q;
     ButteraugliFuzzyInverse := fun seek => seek;
     CreateHeatMapImage := fun _ _ _ => tt;
     EncodeImagePNG := fun _ => (true, tt);
     WriteFile := fun _ filename => negb (String.prefix "/nonexistent/" filename) |}.

End Demo.

(** ** Colour encodings, from [color_encoding_internal.h] *)

Module Color.

(** The enumerations, each in a module of its name so that
    [ColorSpace.kRGB] reads as [ColorSpace::kRGB]; [value] is the
    enumerator's number, on which the comparisons of the source work. *)
Module ColorSpace.
Inductive t : Type := kRGB | kGray | kXYB | kUnknown.
Definition value (c : t) : N :=
  match c with kRGB => 0 | kGray => 1 | kXYB => 2 | kUnknown => 3 end%N.
Definition eqb (a b : t) : bool := (value a =? value b)%N.
End ColorSpace.

Module WhitePoint.
Inductive t : Type := kD65 | kCustom | kE | kDCI.
Definition value (w : t) : N :=
  match w with kD65 => 1 | kCustom => 2 | kE => 10 | kDCI => 11 end%N.
Definition eqb (a b : t) : bool := (value a =? value b)%N.
End WhitePoint.

Module Primaries.
Inductive t : Type := kSRGB | kCustom | k2100 | kP3.
Definition value (p : t) : N :=
  match p with kSRGB => 1 | kCustom => 2 | k2100 => 9 | kP3 => 11 end%N.
Definition eqb (a b : t) : bool := (value a =? value b)%N.
End Primaries.

Module TransferFunction.
Inductive t : Type := k709 | kUnknown | kLinear | kSRGB | kPQ | kDCI | kHLG.
Definition value (f : t) : N :=
  match f with
  | k709 => 1 | kUnknown => 2 | kLinear => 8 | kSRGB => 13
  | kPQ => 16 | kDCI => 17 | kHLG => 18
  end%N.
Definition eqb (a b : t) : bool := (value a =? value b)%N.
End TransferFunction.

Module RenderingIntent.
Inductive t : Type := kPerceptual | kRelative | kSaturation | kAbsolute.
Definition value (r : t) : N :=
  match r with kPerceptual => 0 | kRelative => 1 | kSaturation => 2 | kAbsolute => 3 end%N.
End RenderingIntent.

(** [Customxy]: the serializable chromaticity, two [int32_t]. *)
Record Customxy : Type := {
  x : Z;
  y : Z
}.

(** [PaddedBytes], as far as this header uses it. *)
Definition PaddedBytes : Type := list Byte.byte.

(** *** [CustomTransferFunction] *)

Module CustomTransferFunction.

Record t : Type := {
  nonserialized_color_space : ColorSpace.t;
  have_gamma_ : bool;
  gamma_ : N;                               (* only used if have_gamma_ *)
  transfer_function_ : TransferFunction.t   (* only used if !have_gamma_ *)
}.

Definition IsGamma (f : t) : bool := have_gamma_ f.

(** [JXL_ASSERT(!IsGamma()); return transfer_function_;] with the
    violated assertion as [None]. *)
Definition GetTransferFunction (f : t) : option TransferFunction.t :=
  if negb (IsGamma f) then Some (transfer_function_ f) else None.

Definition SetTransferFunction (f : t) (tf : TransferFunction.t) : t :=
  {| nonserialized_color_space := nonserialized_color_space f;
     have_gamma_ := false;
     gamma_ := gamma_ f;
     transfer_function_ := tf |}.

Definition IsUnknown (f : t) : bool :=
  negb (have_gamma_ f) && TransferFunction.eqb (transfer_function_ f) TransferFunction.kUnknown.
Definition IsSRGB (f : t) : bool :=
  negb (have_gamma_ f) && TransferFunction.eqb (transfer_function_ f) TransferFunction.kSRGB.
Definition IsLinear (f : t) : bool :=
  negb (have_gamma_ f) && TransferFunction.eqb (transfer_function_ f) TransferFunction.kLinear.
Definition IsPQ (f : t) : bool :=
  negb (have_gamma_ f) && TransferFunction.eqb (transfer_function_ f) TransferFunction.kPQ.
Definition IsHLG (f : t) : bool :=
  negb (have_gamma_ f) && TransferFunction.eqb (transfer_function_ f) TransferFunction.kHLG.

Definition IsSame (f other : t) : bool :=
  if negb (Bool.eqb (have_gamma_ f) (have_gamma_ other)) then false
  else if have_gamma_ f then
    (if negb (gamma_ f =? gamma_ other)%N then false else true)
  else
    (if negb (TransferFunction.eqb (transfer_function_ f) (transfer_function_ other))
     then false else true).

End CustomTransferFunction.

(** *** [ColorEncoding] *)

Module ColorEncoding.

Record t : Type := {
  all_default : bool;
  white_point : WhitePoint.t;
  primaries : Primaries.t;                  (* only valid if HasPrimaries() *)
  tf : CustomTransferFunction.t;
  rendering_intent : RenderingIntent.t;
  want_icc_ : bool;
  icc_ : PaddedBytes;
  color_space_ : ColorSpace.t;
  white_ : Customxy;                        (* only used if white_point == kCustom *)
  red_ : Customxy;                          (* only used if primaries == kCustom *)
  green_ : Customxy;
  blue_ : Customxy
}.

Definition ICC (c : t) : PaddedBytes := icc_ c.
Definition WantICC (c : t) : bool := want_icc_ c.
Definition GetColorSpace (c : t) : ColorSpace.t := color_space_ c.

(** Assignments to [icc_] and to [want_icc_]. *)
Definition set_icc (c : t) (icc : PaddedBytes) : t :=
  {| all_default := all_default c; white_point := white_point c;
     primaries := primaries c; tf := tf c; rendering_intent := rendering_intent c;
     want_icc_ := want_icc_ c; icc_ := icc; color_space_ := color_space_ c;
     white_ := white_ c; red_ := red_ c; green_ := green_ c; blue_ := blue_ c |}.

Definition set_want_icc (c : t) (w : bool) : t :=
  {| all_default := all_default c; white_point := white_point c;
     primaries := primaries c; tf := tf c; rendering_intent := rendering_intent c;
     want_icc_ := w; icc_ := icc_ c; color_space_ := color_space_ c;
     white_ := white_ c; red_ := red_ c; green_ := green_ c; blue_ := blue_ c |}.

(** [icc_.clear()] *)
Definition InternalRemoveICC (c : t) : t := set_icc c [].

Definition IsGray (c : t) : bool :=
  ColorSpace.eqb (color_space_ c) ColorSpace.kGray.

Definition Channels (c : t) : N := if IsGray c then 1%N else 3%N.

Definition HasPrimaries (c : t) : bool :=
  negb (IsGray c) && negb (ColorSpace.eqb (color_space_ c) ColorSpace.kXYB).

(** [white_point = WhitePoint::kD65] when the colour space is XYB. *)
Definition ImplicitWhitePoint (c : t) : bool * t :=
  if ColorSpace.eqb (color_space_ c) ColorSpace.kXYB then
    (true,
     {| all_default := all_default c; white_point := WhitePoint.kD65;
        primaries := primaries c; tf := tf c; rendering_intent := rendering_intent c;
        want_icc_ := want_icc_ c; icc_ := icc_ c; color_space_ := color_space_ c;
        white_ := white_ c; red_ := red_ c; green_ := green_ c; blue_ := blue_ c |})
  else (false, c).

Definition IsSRGB (c : t) : bool :=
  if negb (IsGray c) && negb (ColorSpace.eqb (color_space_ c) ColorSpace.kRGB) then false
  else if negb (WhitePoint.eqb (white_point c) WhitePoint.kD65) then false
  else if negb (Primaries.eqb (primaries c) Primaries.kSRGB) then false
  else if negb (CustomTransferFunction.IsSRGB (tf c)) then false
  else true.

Definition IsLinearSRGB (c : t) : bool :=
  if negb (IsGray c) && negb (ColorSpace.eqb (color_space_ c) ColorSpace.kRGB) then false
  else if negb (WhitePoint.eqb (white_point c) WhitePoint.kD65) then false
  else if negb (Primaries.eqb (primaries c) Primaries.kSRGB) then false
  else if negb (CustomTransferFunction.IsLinear (tf c)) then false
  else true.

(** [color_space_ = cs; tf.nonserialized_color_space = cs;] *)
Definition SetColorSpace (c : t) (cs : ColorSpace.t) : t :=
  {| all_default := all_default c; white_point := white_point c;
     primaries := primaries c;
     tf := {| CustomTransferFunction.nonserialized_color_space := cs;
              CustomTransferFunction.have_gamma_ :=
                CustomTransferFunction.have_gamma_ (tf c);
              CustomTransferFunction.gamma_ := CustomTransferFunction.gamma_ (tf c);
              CustomTransferFunction.transfer_function_ :=
                CustomTransferFunction.transfer_function_ (tf c) |};
     rendering_intent := rendering_intent c;
     want_icc_ := want_icc_ c; icc_ := icc_ c; color_space_ := cs;
     white_ := white_ c; red_ := red_ c; green_ := green_ c; blue_ := blue_ c |}.

(** [a.x != b.x || a.y != b.y] *)
Definition xy_differ (a b : Customxy) : bool :=
  negb (x a =? x b)%Z || negb (y a =? y b)%Z.

Definition SameColorSpace (c other : t) : bool :=
  if negb (ColorSpace.eqb (color_space_ c) (color_space_ other)) then false
  else if negb (WhitePoint.eqb (white_point c) (white_point other)) then false
  else if WhitePoint.eqb (white_point c) WhitePoint.kCustom
          && xy_differ (white_ c) (white_ other) then false
  else if negb (Bool.eqb (HasPrimaries c) (HasPrimaries other)) then false
  else if HasPrimaries c then
    if negb (Primaries.eqb (primaries c) (primaries other)) then false
    else if Primaries.eqb (primaries c) Primaries.kCustom then
      if xy_differ (red_ c) (red_ other) then false
      else if xy_differ (green_ c) (green_ other) then false
      else if xy_differ (blue_ c) (blue_ other) then false
      else true
    else true
  else true.

Definition SameColorEncoding (c other : t) : bool :=
  SameColorSpace c other && CustomTransferFunction.IsSame (tf c) (tf other).

Section ColorManagement.

(** [CreateICC] and [SetFieldsFromICC] are defined in
    [color_management.cc]; each gives its status and may change the
    encoding it is called on. *)
Variable CreateICC : t -> bool * t.
Variable SetFieldsFromICC : t -> bool * t.

(** The encoding [SetSRGB] has built when it calls [CreateICC]. *)
Definition srgb_fields (c : t) (cs : ColorSpace.t) (ri : RenderingIntent.t) : t :=
  let c := InternalRemoveICC c in
  {| all_default := all_default c; white_point := WhitePoint.kD65;
     primaries := Primaries.kSRGB;
     tf := CustomTransferFunction.SetTransferFunction (tf c) TransferFunction.kSRGB;
     rendering_intent := ri;
     want_icc_ := want_icc_ c; icc_ := icc_ c; color_space_ := cs;
     white_ := white_ c; red_ := red_ c; green_ := green_ c; blue_ := blue_ c |}.

(** [SetSRGB]; the violated [JXL_ASSERT] is [None]. *)
Definition SetSRGB (c : t) (cs : ColorSpace.t) (ri : RenderingIntent.t)
    : option (bool * t) :=
  if ColorSpace.eqb cs ColorSpace.kGray || ColorSpace.eqb cs ColorSpace.kRGB
  then Some (CreateICC (srgb_fields c cs ri))
  else None.

Definition SetICC (c : t) (icc : PaddedBytes) : bool * t :=
  match icc with
  | [] => (false, c)
  | _ =>
      let c := set_icc c icc in
      let '(ok, c) := SetFieldsFromICC c in
      if negb ok then (false, InternalRemoveICC c)
      else (true, set_want_icc c true)
  end.

End ColorManagement.

End ColorEncoding.

End Color.

(** ** The in-memory streams and the intensity target, from
    [codec_exr.cc] *)

Module Exr.

Definition Bytes : Type := list Byte.byte.

(** *** [GetIntensityTarget] *)

Inductive Warning : Type :=
| WarnOverride (exr_luminance target_nits : Q)
| WarnDefault (target : Q).

Definition nonzero (v : Q) : bool := negb (Qeq_bool v 0).

(** [target_nits] is [io.target_nits]; [white_luminance] is the
    header's [whiteLuminance] when [hasWhiteLuminance] holds;
    [kDefaultIntensityTarget] is declared outside this file. *)
Definition GetIntensityTarget (kDefaultIntensityTarget : Q)
    (target_nits : Q) (white_luminance : option Q) : Q * list Warning :=
  match white_luminance with
  | Some exr_luminance =>
      if nonzero target_nits
      then (target_nits, [WarnOverride exr_luminance target_nits])
      else (exr_luminance, [])
  | None =>
      if nonzero target_nits then (target_nits, [])
      else (kDefaultIntensityTarget, [WarnDefault kDefaultIntensityTarget])
  end.

(** *** [InMemoryIStream] *)

Record InMemoryIStream : Type := {
  ibytes : Bytes;
  ipos : nat
}.

Definition open_in (bytes : Bytes) : InMemoryIStream := {| ibytes := bytes; ipos := 0 |}.

(** [readMemoryMapped(n)], for a count [n] that is not negative: the
    [n] bytes at the position, which then moves past them; the violated
    [JXL_ASSERT] is [None]. *)
Definition readMemoryMapped (s : InMemoryIStream) (n : nat)
    : option (Bytes * InMemoryIStream) :=
  if ipos s + n <=? length (ibytes s)
  then Some (firstn n (skipn (ipos s) (ibytes s)),
             {| ibytes := ibytes s; ipos := ipos s + n |})
  else None.

(** [read(c, n)]: the bytes copied into [c], and the returned flag. *)
Definition read (s : InMemoryIStream) (n : nat)
    : option (Bytes * bool * InMemoryIStream) :=
  match readMemoryMapped s n with
  | Some (c, s') => Some (c, ipos s' <? length (ibytes s'), s')
  | None => None
  end.

Definition tellg (s : InMemoryIStream) : nat := ipos s.

(** [seekg(pos)], for an unsigned 64-bit [pos]: the sum [pos + 1] of
    the assertion wraps around at [2^64].  The violated [JXL_ASSERT]
    is [None]. *)
Definition seekg (s : InMemoryIStream) (pos : N) : option InMemoryIStream :=
  if ((pos + 1) mod 2 ^ 64 <=? N.of_nat (length (ibytes s)))%N
  then Some {| ibytes := ibytes s; ipos := N.to_nat pos |}
  else None.

(** *** [InMemoryOStream] *)

Section Output.

(** [PaddedBytes::resize] is declared outside this file.  It is taken
    to set the size and keep the bytes below it, as a vector does; what
    it leaves in the bytes it adds is not fixed here: [fresh i] stands
    for the content of a new byte at index [i]. *)
Variable fresh : nat -> Byte.byte.

Definition resize (bytes : Bytes) (size : nat) : Bytes :=
  firstn size bytes ++ map fresh (seq (length bytes) (size - length bytes)).

Record InMemoryOStream : Type := {
  obytes : Bytes;
  opos : nat
}.

Definition open_out (bytes : Bytes) : InMemoryOStream := {| obytes := bytes; opos := 0 |}.

(** [write(c, n)], with [n] the length of [c]. *)
Definition write (s : InMemoryOStream) (c : Bytes) : InMemoryOStream :=
  let n := length c in
  let bytes :=
    if length (obytes s) <? opos s + n then resize (obytes s) (opos s + n)
    else obytes s in
  {| obytes := firstn (opos s) bytes ++ c ++ skipn (opos s + n) bytes;
     opos := opos s + n |}.

Definition tellp (s : InMemoryOStream) : nat := opos s.

Definition seekp (s : InMemoryOStream) (pos : nat) : InMemoryOStream :=
  {| obytes := if length (obytes s) + 1 <? pos then resize (obytes s) (pos - 1)
               else obytes s;
     opos := pos |}.

End Output.

End Exr.

(** * Properties *)

(** ** The option scan of [main] *)

Module ScanFacts.

Import Tool.

(** Every pass through the loop body advances [i]. *)
Lemma loop_body_advances argv i o : i < fst (loop_body argv i o).
Proof.
  unfold loop_body.
  destruct (String.eqb (arg argv i) "--distmap" && (i + 1 <? argc argv));
    [ destruct (String.eqb (arg argv (i + 1)) "--colorspace" && (i + 1 + 1 <? argc argv))
    | destruct (String.eqb (arg argv i) "--colorspace" && (i + 1 <? argc argv)) ];
    simpl; lia.
Qed.

(** Once [i] has reached [argc] the loop is over. *)
Lemma loop_done fuel argv i o : argc argv <= i -> loop fuel argv i o = o.
Proof.
  intros Hi. destruct fuel as [|fuel]; simpl; [reflexivity|].
  destruct (Nat.ltb_spec i (argc argv)); [lia | reflexivity].
Qed.

(** The loop ends within [argc - i] passes: any two amounts of fuel
    that large give the same options. *)
Lemma loop_enough a argv : forall i o b,
  argc argv - i <= a -> argc argv - i <= b ->
  loop a argv i o = loop b argv i o.
Proof.
  induction a as [|a IH]; intros i o b Ha Hb.
  - rewrite !loop_done by lia. reflexivity.
  - destruct b as [|b]; [rewrite !loop_done by lia; reflexivity|].
    simpl. destruct (Nat.ltb_spec i (argc argv)); [|reflexivity].
    pose proof (loop_body_advances argv i o) as Hadv.
    destruct (loop_body argv i o) as [j p]. simpl in Hadv.
    apply IH; lia.
Qed.

Lemma loop_fuel fuel argv i o :
  argc argv - i <= fuel ->
  loop fuel argv i o = loop (argc argv - i) argv i o.
Proof. intros Hf. apply loop_enough; lia. Qed.

(** The fuel [parse_options] gives the loop is enough: no larger
    amount changes the options it returns. *)
Lemma parse_options_fuel fuel argv :
  argc argv <= fuel -> loop fuel argv 2 no_options = parse_options argv.
Proof. intros Hf. unfold parse_options. apply loop_enough; lia. Qed.


End ScanFacts.

(** ** Runs of the tool, case by case *)

Module RunFacts.

Import Tool ToolSpec.

Ltac run_tool :=
  unfold run, main, RunButteraugli, WritePNG, read, bind, call, ret, printf,
    fprintf_stderr, JXL_CHECK, start;
  cbn [stdout stderr calls fst snd app].

Ltac few_args argv :=
  destruct (Nat.ltb_spec (argc argv) 3); [lia|].

Section Runs.

Context {ImageBundle ImageF Image3B PaddedBytes : Type}.
Variable env : Env ImageBundle ImageF Image3B PaddedBytes.
Variable argv : list string.

Lemma run_usage :
  argc argv < 3 ->
  run env argv =
  (Exit 1, {| stdout := []; stderr := [ErrUsage (arg argv 0)]; calls := [] |}).
Proof.
  intros H. run_tool. destruct (Nat.ltb_spec (argc argv) 3); [reflexivity | lia].
Qed.

Lemma run_unreadable_reference :
  3 <= argc argv -> reference env argv = None ->
  run env argv =
  (Exit 1, {| stdout := []; stderr := [ErrRead (arg argv 1)];
              calls := [CSetFromFile (arg argv 1) (hints argv)] |}).
Proof.
  unfold reference, hints. intros H R. run_tool. few_args argv.
  rewrite R. reflexivity.
Qed.

Lemma run_unreadable_distorted io1 :
  3 <= argc argv -> reference env argv = Some io1 -> distorted env argv = None ->
  run env argv =
  (Exit 1, {| stdout := []; stderr := [ErrRead (arg argv 2)];
              calls := [CSetFromFile (arg argv 1) (hints argv);
                        CSetFromFile (arg argv 2) (hints argv)] |}).
Proof.
  unfold reference, distorted, hints. intros H R D. run_tool. few_args argv.
  rewrite R, D. reflexivity.
Qed.

Lemma run_width_mismatch io1 io2 :
  3 <= argc argv -> reference env argv = Some io1 -> distorted env argv = Some io2 ->
  xsize io1 <> xsize io2 ->
  run env argv =
  (Exit 1, {| stdout := []; stderr := [ErrWidth (xsize io1) (xsize io2)];
              calls := [CSetFromFile (arg argv 1) (hints argv);
                        CSetFromFile (arg argv 2) (hints argv)] |}).
Proof.
  unfold reference, distorted, hints. intros H R D W. run_tool. few_args argv.
  rewrite R, D. destruct (N.eqb_spec (xsize io1) (xsize io2)); [contradiction|].
  reflexivity.
Qed.

Lemma run_height_mismatch io1 io2 :
  3 <= argc argv -> reference env argv = Some io1 -> distorted env argv = Some io2 ->
  xsize io1 = xsize io2 -> ysize io1 <> ysize io2 ->
  run env argv =
  (Exit 1, {| stdout := []; stderr := [ErrHeight (ysize io1) (ysize io2)];
              calls := [CSetFromFile (arg argv 1) (hints argv);
                        CSetFromFile (arg argv 2) (hints argv)] |}).
Proof.
  unfold reference, distorted, hints. intros H R D W Hh. run_tool. few_args argv.
  rewrite R, D. destruct (N.eqb_spec (xsize io1) (xsize io2)); [|contradiction].
  destruct (N.eqb_spec (ysize io1) (ysize io2)); [contradiction|].
  reflexivity.
Qed.

Lemma run_compared io1 io2 :
  comparable env argv io1 io2 ->
  run env argv =
  if empty (distmap (parse_options argv)) then
    (Exit 0, {| stdout := score_lines env io1 io2; stderr := [];
                calls := comparison_calls env argv io1 io2 |})
  else
    let encoded := EncodeImagePNG env (heatmap_image env io1 io2) in
    if fst encoded then
      let written := WriteFile env (snd encoded) (distmap (parse_options argv)) in
      (if written then Exit 0 else Abort,
       {| stdout := score_lines env io1 io2; stderr := [];
          calls := comparison_calls env argv io1 io2 ++ heatmap_calls env io1 io2 ++
                   [CWriteFile (snd encoded) (distmap (parse_options argv))] |})
    else
      (Abort, {| stdout := score_lines env io1 io2; stderr := [];
                 calls := comparison_calls env argv io1 io2 ++ heatmap_calls env io1 io2 |}).
Proof.
  unfold comparable, reference, distorted, hints.
  intros (H & R & D & W & Hh). run_tool. few_args argv.
  rewrite R, D. rewrite W, Hh, !N.eqb_refl. cbn [negb].
  destruct (empty (distmap (parse_options argv))); cbn [negb].
  - reflexivity.
  - unfold heatmap_image.
    destruct (EncodeImagePNG env _) as [ok bytes]. cbn [fst snd].
    destruct ok; [|reflexivity].
    destruct (WriteFile env bytes _); reflexivity.
Qed.

(** Every run is of one of the two kinds. *)
Lemma failure_or_comparable :
  input_failure env argv \/ exists io1 io2, comparable env argv io1 io2.
Proof.
  unfold input_failure, comparable.
  destruct (Nat.lt_ge_cases (argc argv) 3) as [|H]; [tauto|].
  destruct (reference env argv) as [io1|]; [|tauto].
  destruct (distorted env argv) as [io2|]; [|tauto].
  destruct (N.eq_dec (xsize io1) (xsize io2)) as [W|W];
    [| left; right; right; right; exists io1, io2; tauto].
  destruct (N.eq_dec (ysize io1) (ysize io2)) as [Hh|Hh];
    [| left; right; right; right; exists io1, io2; tauto].
  right. exists io1, io2. tauto.
Qed.

(** On an input failure the run is one of the five short ones. *)
Lemma run_input_failure :
  input_failure env argv ->
  exists e cs,
    run env argv = (Exit 1, {| stdout := []; stderr := [e]; calls := cs |}) /\
    forall c, In c cs -> exists pathname h, c = CSetFromFile pathname h.
Proof.
  intros [H | H].
  { eexists _, _. split; [apply run_usage; exact H|]. intros c []. }
  destruct (Nat.lt_ge_cases (argc argv) 3) as [Hlt|Hge].
  { eexists _, _. split; [apply run_usage; exact Hlt|]. intros c []. }
  assert (Hr : reference env argv = None \/ exists io1, reference env argv = Some io1)
    by (destruct (reference env argv); eauto).
  destruct Hr as [Hr | [io1 Hr]].
  { eexists _, _. split; [apply run_unreadable_reference; assumption|].
    intros c [<- | []]; eauto. }
  assert (Hd : distorted env argv = None \/ exists io2, distorted env argv = Some io2)
    by (destruct (distorted env argv); eauto).
  destruct Hd as [Hd | [io2 Hd]].
  { eexists _, _. split; [eapply run_unreadable_distorted; eassumption|].
    intros c [<- | [<- | []]]; eauto. }
  destruct H as [H | [H | (a & b & Ha & Hb & Hm)]]; try congruence.
  rewrite Hr in Ha. rewrite Hd in Hb.
  injection Ha as <-. injection Hb as <-.
  destruct (N.eq_dec (xsize io1) (xsize io2)) as [W|W].
  - destruct Hm as [Hm|Hm]; [contradiction|].
    eexists _, _. split; [eapply run_height_mismatch; eassumption|].
    intros c [<- | [<- | []]]; eauto.
  - eexists _, _. split; [eapply run_width_mismatch; eassumption|].
    intros c [<- | [<- | []]]; eauto.
Qed.

End Runs.

End RunFacts.

(** ** The tool's contract *)

Module ToolFacts.

Import Tool ToolSpec ScanFacts RunFacts.

Lemma empty_true s : empty s = true <-> s = "".
Proof. unfold empty. apply String.eqb_eq. Qed.

Lemma empty_false s : empty s = false <-> s <> "".
Proof. unfold empty. apply String.eqb_neq. Qed.

Section Contract.

Context {ImageBundle ImageF Image3B PaddedBytes : Type}.
Variable env : Env ImageBundle ImageF Image3B PaddedBytes.
Variable argv : list string.

(** What a completed comparison leaves behind, whatever happens to the
    heat map. *)
Lemma compared_outputs io1 io2 :
  comparable env argv io1 io2 ->
  stdout (snd (run env argv)) = score_lines env io1 io2 /\
  stderr (snd (run env argv)) = [] /\
  exists rest, calls (snd (run env argv)) = comparison_calls env argv io1 io2 ++ rest.
Proof.
  intros C. rewrite (run_compared env argv io1 io2 C).
  destruct (empty _); [|cbv zeta; destruct (fst _); [destruct (WriteFile _ _ _)|]];
    cbn [fst snd stdout stderr calls]; (split; [reflexivity|split; [reflexivity|]]).
  - exists []. now rewrite app_nil_r.
  - eexists. reflexivity.
  - eexists. reflexivity.
  - eexists. reflexivity.
Qed.

End Contract.




(** C2: when both inputs are decoded and their widths or their heights
    differ, the run stops with the diagnostic that carries the two
    differing values (the width is looked at first), exit code 1 and an
    empty standard output; the only calls made are the two reads, so
    neither [ButteraugliDistance] (difference map and score) nor the
    p-norm nor the heat map is computed. *)
Theorem size_mismatch_stops {ImageBundle ImageF Image3B PaddedBytes : Type}
    (env : Env ImageBundle ImageF Image3B PaddedBytes) (argv : list string)
    (io1 io2 : CodecInOut ImageBundle) :
  3 <= argc argv ->
  reference env argv = Some io1 ->
  distorted env argv = Some io2 ->
  xsize io1 <> xsize io2 \/ ysize io1 <> ysize io2 ->
  fst (run env argv) = Exit 1 /\
  stdout (snd (run env argv)) = [] /\
  stderr (snd (run env argv)) =
    [if (xsize io1 =? xsize io2)%N
     then ErrHeight (ysize io1) (ysize io2)
     else ErrWidth (xsize io1) (xsize io2)] /\
  calls (snd (run env argv)) =
    [CSetFromFile (arg argv 1) (hints argv); CSetFromFile (arg argv 2) (hints argv)] /\
  (forall ref dist hf, ~ In (CDistance ref dist hf) (calls (snd (run env argv)))) /\
  (forall m p, ~ In (CPNorm m p) (calls (snd (run env argv)))) /\
  (forall m good bad, ~ In (CHeatMap m good bad) (calls (snd (run env argv)))).
Proof.
  intros H R D M.
  destruct (N.eqb_spec (xsize io1) (xsize io2)) as [W|W].
  - destruct M as [M|M]; [contradiction|].
    rewrite (run_height_mismatch env argv io1 io2 H R D W M). cbn.
    repeat split; intros; intros [?|[?|[]]]; discriminate.
  - rewrite (run_width_mismatch env argv io1 io2 H R D W). cbn.
    repeat split; intros; intros [?|[?|[]]]; discriminate.
Qed.

Lemma size_mismatch_stops_witness :
  fst (run Demo.env ["butteraugli"; "ref.png"; "wide.png"]) = Exit 1 /\
  stdout (snd (run Demo.env ["butteraugli"; "ref.png"; "wide.png"])) = [] /\
  stderr (snd (run Demo.env ["butteraugli"; "ref.png"; "wide.png"])) = [ErrWidth 64 128].
Proof.
  destruct (size_mismatch_stops Demo.env ["butteraugli"; "ref.png"; "wide.png"]
              (Demo.image 64 64) (Demo.image 128 64)) as (E & O & S & _).
  - simpl. lia.
  - reflexivity.
  - reflexivity.
  - left. discriminate.
  - split; [exact E|]. split; [exact O|exact S].
Defined.

(** C4: in every run, each call of the comparison is made with
    asymmetry factor 0.8 and each pooling call with p = 3; and when the
    two inputs are comparable the run does compare them with 0.8, pools
    the difference map of that comparison with p = 3, and prints those
    two results. *)
Theorem reference_configuration {ImageBundle ImageF Image3B PaddedBytes : Type}
    (env : Env ImageBundle ImageF Image3B PaddedBytes) (argv : list string) :
  (forall ref dist hf,
     In (CDistance ref dist hf) (calls (snd (run env argv))) -> hf = 0.8%Q) /\
  (forall m p,
     In (CPNorm m p) (calls (snd (run env argv))) -> p = 3%Q) /\
  (forall io1 io2, comparable env argv io1 io2 ->
     let compared := ButteraugliDistance env (Main io1) (Main io2) 0.8%Q in
     In (CDistance (Main io1) (Main io2) 0.8%Q) (calls (snd (run env argv))) /\
     In (CPNorm (snd compared) 3%Q) (calls (snd (run env argv))) /\
     stdout (snd (run env argv)) =
       [OutDistance (fst compared);
        OutPNorm 3 (ComputeDistanceP env (snd compared) 3%Q)]).
Proof.
  assert (Hc : forall c, In c (calls (snd (run env argv))) ->
             match c with
             | CDistance _ _ hf => hf = 0.8%Q
             | CPNorm _ p => p = 3%Q
             | _ => True
             end).
  { intros c Hin.
    destruct (failure_or_comparable env argv) as [F | (io1 & io2 & C)].
    - destruct (run_input_failure env argv F) as (e & cs & Hrun & Hcs).
      rewrite Hrun in Hin. cbn in Hin.
      destruct (Hcs c Hin) as (pn & h & ->). exact I.
    - rewrite (run_compared env argv io1 io2 C) in Hin.
      destruct (empty _); [|cbv zeta in Hin; destruct (fst _); [destruct (WriteFile _ _ _)|]];
        cbn [fst snd calls] in Hin;
        unfold comparison_calls, heatmap_calls in Hin; cbn [app] in Hin;
        repeat (destruct Hin as [<- | Hin]; [try exact I; reflexivity|]);
        destruct Hin. }
  split; [|split].
  - intros ref dist hf Hin. exact (Hc _ Hin).
  - intros m p Hin. exact (Hc _ Hin).
  - intros io1 io2 C compared.
    destruct (compared_outputs env argv io1 io2 C) as (Hout & _ & rest & Hcalls).
    rewrite Hcalls, Hout. unfold comparison_calls, score_lines. cbn [app].
    split; [right; right; left; reflexivity|].
    split; [right; right; right; left; reflexivity|reflexivity].
Qed.

Lemma reference_configuration_witness :
  In (CDistance tt tt 0.8%Q)
     (calls (snd (run Demo.env ["butteraugli"; "ref.png"; "dist.png"]))) /\
  In (CPNorm tt 3%Q)
     (calls (snd (run Demo.env ["butteraugli"; "ref.png"; "dist.png"]))) /\
  stdout (snd (run Demo.env ["butteraugli"; "ref.png"; "dist.png"])) =
    [OutDistance 1.25%Q; OutPNorm 3 0.5%Q].
Proof.
  apply (proj2 (proj2 (reference_configuration Demo.env
                         ["butteraugli"; "ref.png"; "dist.png"]))
           (Demo.image 64 64) (Demo.image 64 64)).
  unfold comparable. repeat split. simpl. lia.
Defined.



End ToolFacts.

(** ** Pooling is monotonic *)

Module PoolingFacts.

Import Pooling.
Local Open Scope R_scope.

Lemma power_nonneg v p : 0 <= power v p.
Proof.
  unfold power. destruct (Rlt_dec 0 v); [|lra].
  unfold Rpower. left. apply exp_pos.
Qed.

Lemma power_mono p a b : 0 < p -> b <= a -> power b p <= power a p.
Proof.
  intros Hp Hba. unfold power.
  destruct (Rlt_dec 0 b) as [Hb|Hb], (Rlt_dec 0 a) as [Ha|Ha]; try lra.
  - apply Rle_Rpower_l; lra.
  - unfold Rpower. left. apply exp_pos.
Qed.

Lemma sum_mono (f : R -> R) la lb :
  (forall a b, b <= a -> f b <= f a) ->
  Forall2 (fun a b => b <= a) la lb ->
  sum (map f lb) <= sum (map f la).
Proof.
  intros Hf H. unfold sum.
  induction H as [|a b la lb Hab _ IH]; cbn [map fold_right]; [lra|].
  specialize (Hf a b Hab). lra.
Qed.

Lemma pixels_dominated A B :
  dominates A B -> Forall2 (fun a b => b <= a) (pixels A) (pixels B).
Proof.
  unfold dominates, pixels.
  induction 1 as [|ra rb A B Hrow _ IH]; cbn; [constructor|].
  apply Forall2_app; assumption.
Qed.

Lemma pnorm_mono p A B :
  0 < p -> dominates A B -> pnorm p B <= pnorm p A.
Proof.
  intros Hp HD. unfold pnorm.
  apply power_mono; [apply Rinv_0_lt_compat; exact Hp|].
  apply sum_mono; [|apply pixels_dominated; exact HD].
  intros a b Hab. apply power_mono; assumption.
Qed.

(** The model is the usual norm: a map of zeros pools to 0, and a map of
    one positive pixel pools to that pixel. *)
Lemma pnorm_zero p : pnorm p [[0; 0]; [0; 0]] = 0.
Proof.
  unfold pnorm, pixels, sum, power. cbn.
  destruct (Rlt_dec 0 0); [lra|].
  destruct (Rlt_dec 0 (0 + (0 + (0 + (0 + 0))))); [lra|reflexivity].
Qed.

Lemma pnorm_single p v : 0 < p -> 0 < v -> pnorm p [[v]] = v.
Proof.
  intros Hp Hv. unfold pnorm, pixels, sum, power. cbn.
  destruct (Rlt_dec 0 v); [|lra].
  assert (0 < Rpower v p) by (unfold Rpower; apply exp_pos).
  destruct (Rlt_dec 0 (Rpower v p + 0)); [|lra].
  rewrite Rplus_0_r, Rpower_mult, Rinv_r by lra.
  apply Rpower_1; exact Hv.
Qed.

(** C9: if the difference map [A] dominates the difference map [B] at
    every pixel, the pooled score of [A] is at least that of [B], for
    the reference order 3 and for every order p > 0. *)
Theorem pooling_monotonic (A B : DiffMap) :
  dominates A B ->
  ButteraugliScoreFromDiffmap B <= ButteraugliScoreFromDiffmap A /\
  forall p, 0 < p -> pnorm p B <= pnorm p A.
Proof.
  intros HD. split.
  - unfold ButteraugliScoreFromDiffmap. apply pnorm_mono; [lra|exact HD].
  - intros p Hp. apply pnorm_mono; assumption.
Qed.

Lemma pooling_monotonic_witness :
  ButteraugliScoreFromDiffmap [[1; 1]; [0; 2]] <=
  ButteraugliScoreFromDiffmap [[2; 1]; [0; 3]].
Proof.
  apply (proj1 (pooling_monotonic [[2; 1]; [0; 3]] [[1; 1]; [0; 2]]
                  ltac:(unfold dominates;
                        repeat (first [apply Forall2_nil | apply Forall2_cons]); lra))).
Defined.

End PoolingFacts.

(** ** More on the tool: where option values come from, what is read
    and what is written *)

Module ToolMoreFacts.

Import Tool ToolSpec ScanFacts RunFacts ToolFacts.

(** What the loop keeps true of the options: a value that is set was
    found right after its flag, at an index of the scanned range. *)
Lemma loop_body_values argv i o :
  2 <= i -> i < argc argv ->
  forall P : Options -> Prop,
  (P = fun o =>
     (distmap o = "" \/
      exists k, 2 <= k /\ k + 1 < argc argv /\
                arg argv k = "--distmap" /\ distmap o = arg argv (k + 1)) /\
     (colorspace o = "" \/
      exists k, 2 <= k /\ k + 1 < argc argv /\
                arg argv k = "--colorspace" /\ colorspace o = arg argv (k + 1))) ->
  P o -> P (snd (loop_body argv i o)) /\ 2 <= fst (loop_body argv i o).
Proof.
  intros H2 Hi P -> [Hd Hc]. unfold loop_body.
  destruct (String.eqb_spec (arg argv i) "--distmap") as [Ed|Ed]; cbn [andb].
  - destruct (Nat.ltb_spec (i + 1) (argc argv)) as [L|L].
    + destruct (String.eqb_spec (arg argv (i + 1)) "--colorspace") as [Ec|Ec]; cbn [andb].
      * destruct (Nat.ltb_spec (i + 1 + 1) (argc argv)) as [L'|L']; cbn [fst snd distmap colorspace].
        -- split; [|lia]. split; right; [exists i | exists (i + 1)]; repeat split; auto; lia.
        -- split; [|lia]. split; [right; exists i; repeat split; auto; lia | exact Hc].
      * cbn [fst snd distmap colorspace].
        split; [|lia]. split; [right; exists i; repeat split; auto; lia | exact Hc].
    + rewrite Ed. cbn [String.eqb Ascii.eqb Bool.eqb andb fst snd]. split; [auto|lia].
  - destruct (String.eqb_spec (arg argv i) "--colorspace") as [Ec|Ec]; cbn [andb].
    + destruct (Nat.ltb_spec (i + 1) (argc argv)) as [L|L]; cbn [fst snd distmap colorspace].
      * split; [|lia]. split; [exact Hd | right; exists i; repeat split; auto; lia].
      * split; [auto|lia].
    + cbn [fst snd]. split; [auto|lia].
Qed.

(** X1: whatever the arguments, an option that [main] ends up with is
    either empty or the argument that follows an occurrence of its flag
    at index 2 or later; in particular an invocation with just the two
    paths has no options. *)
Theorem option_values_follow_flags (argv : list string) :
  (distmap (parse_options argv) = "" \/
   exists k, 2 <= k /\ k + 1 < argc argv /\
             arg argv k = "--distmap" /\ distmap (parse_options argv) = arg argv (k + 1)) /\
  (colorspace (parse_options argv) = "" \/
   exists k, 2 <= k /\ k + 1 < argc argv /\
             arg argv k = "--colorspace" /\
             colorspace (parse_options argv) = arg argv (k + 1)) /\
  (argc argv <= 3 -> parse_options argv = no_options).
Proof.
  set (P := fun o : Options =>
     (distmap o = "" \/
      exists k, 2 <= k /\ k + 1 < argc argv /\
                arg argv k = "--distmap" /\ distmap o = arg argv (k + 1)) /\
     (colorspace o = "" \/
      exists k, 2 <= k /\ k + 1 < argc argv /\
                arg argv k = "--colorspace" /\ colorspace o = arg argv (k + 1))).
  assert (Hloop : forall fuel i o, 2 <= i -> P o -> P (loop fuel argv i o)).
  { induction fuel as [|fuel IH]; intros i o Hi Ho; cbn [loop]; [exact Ho|].
    destruct (Nat.ltb_spec i (argc argv)) as [L|L]; [|exact Ho].
    destruct (loop_body_values argv i o Hi L P eq_refl Ho) as [Ho' Hi'].
    destruct (loop_body argv i o) as [i' o']. apply IH; assumption. }
  assert (HP : P (parse_options argv)).
  { apply Hloop; [lia|]. split; left; reflexivity. }
  destruct HP as [Hd Hc]. split; [exact Hd|]. split; [exact Hc|].
  intros Hargc.
  destruct Hd as [Hd | (k & ? & ? & _)]; [|lia].
  destruct Hc as [Hc | (k & ? & ? & _)]; [|lia].
  destruct (parse_options argv) as [d c]. cbn in Hd, Hc. subst. reflexivity.
Qed.

Lemma option_values_follow_flags_witness :
  parse_options ["butteraugli"; "ref.png"; "dist.png"] = no_options.
Proof.
  apply (proj2 (proj2 (option_values_follow_flags ["butteraugli"; "ref.png"; "dist.png"]))).
  simpl. lia.
Defined.

Section Shapes.

Context {ImageBundle ImageF Image3B PaddedBytes : Type}.
Variable env : Env ImageBundle ImageF Image3B PaddedBytes.
Variable argv : list string.

(** The calls of any run are an initial part of the full sequence: the
    two reads, the comparison, the p-norm, the heat map, the file. *)
Lemma calls_shape :
  calls (snd (run env argv)) = [] \/
  calls (snd (run env argv)) = [CSetFromFile (arg argv 1) (hints argv)] \/
  calls (snd (run env argv)) =
    [CSetFromFile (arg argv 1) (hints argv); CSetFromFile (arg argv 2) (hints argv)] \/
  exists io1 io2, comparable env argv io1 io2 /\
    ((distmap (parse_options argv) = "" /\
      calls (snd (run env argv)) = comparison_calls env argv io1 io2) \/
     (distmap (parse_options argv) <> "" /\
      fst (EncodeImagePNG env (heatmap_image env io1 io2)) = false /\
      calls (snd (run env argv)) =
        comparison_calls env argv io1 io2 ++ heatmap_calls env io1 io2) \/
     (distmap (parse_options argv) <> "" /\
      fst (EncodeImagePNG env (heatmap_image env io1 io2)) = true /\
      calls (snd (run env argv)) =
        comparison_calls env argv io1 io2 ++ heatmap_calls env io1 io2 ++
        [CWriteFile (snd (EncodeImagePNG env (heatmap_image env io1 io2)))
                    (distmap (parse_options argv))])).
Proof.
  destruct (Nat.lt_ge_cases (argc argv) 3) as [H|H].
  { left. rewrite (run_usage env argv H). reflexivity. }
  destruct (reference env argv) as [io1|] eqn:R.
  2:{ right; left. rewrite (run_unreadable_reference env argv H R). reflexivity. }
  destruct (distorted env argv) as [io2|] eqn:D.
  2:{ right; right; left. rewrite (run_unreadable_distorted env argv io1 H R D). reflexivity. }
  destruct (N.eq_dec (xsize io1) (xsize io2)) as [W|W].
  2:{ right; right; left. rewrite (run_width_mismatch env argv io1 io2 H R D W). reflexivity. }
  destruct (N.eq_dec (ysize io1) (ysize io2)) as [Hh|Hh].
  2:{ right; right; left. rewrite (run_height_mismatch env argv io1 io2 H R D W Hh).
      reflexivity. }
  right; right; right. exists io1, io2.
  assert (C : comparable env argv io1 io2) by (unfold comparable; auto).
  split; [exact C|]. rewrite (run_compared env argv io1 io2 C).
  destruct (empty (distmap (parse_options argv))) eqn:E.
  { left. apply empty_true in E. split; [exact E | reflexivity]. }
  apply empty_false in E. right. cbv zeta.
  destruct (fst (EncodeImagePNG env (heatmap_image env io1 io2))) eqn:Enc.
  - right. split; [exact E|]. split; [reflexivity|]. reflexivity.
  - left. split; [exact E|]. split; [reflexivity|]. reflexivity.
Qed.

End Shapes.

(** X2: the tool opens nothing but [argv[1]] and [argv[2]], both with
    the same decoder hints: none without a [--colorspace] value,
    otherwise the single hint [color_space] with that value; and when
    the reference cannot be read the distorted file is not opened. *)
Theorem reads_share_hints {ImageBundle ImageF Image3B PaddedBytes : Type}
    (env : Env ImageBundle ImageF Image3B PaddedBytes) (argv : list string) :
  (forall pathname h,
     In (CSetFromFile pathname h) (calls (snd (run env argv))) ->
     h = hints argv /\ (pathname = arg argv 1 \/ pathname = arg argv 2)) /\
  (hints argv =
     if String.eqb (colorspace (parse_options argv)) ""
     then [] else [("color_space", colorspace (parse_options argv))]) /\
  (3 <= argc argv -> reference env argv = None ->
   calls (snd (run env argv)) = [CSetFromFile (arg argv 1) (hints argv)]).
Proof.
  split; [|split].
  - intros pathname h Hin.
    destruct (calls_shape env argv)
      as [E | [E | [E | (io1 & io2 & C & [[_ E] | [(_ & _ & E) | (_ & _ & E)]])]]];
      rewrite E in Hin; unfold comparison_calls, heatmap_calls in Hin;
      cbn [app In] in Hin;
      repeat (destruct Hin as [Hin | Hin];
              [try discriminate Hin; injection Hin as <- <-; auto|]);
      try contradiction.
  - unfold hints, dec_hints, empty.
    destruct (String.eqb (colorspace (parse_options argv)) ""); reflexivity.
  - intros H R. rewrite (run_unreadable_reference env argv H R). reflexivity.
Qed.

Lemma reads_share_hints_witness :
  calls (snd (run Demo.env ["butteraugli"; "missing.png"; "dist.png";
                            "--colorspace"; "RGB_D65_SRG_Rel_Lin"])) =
  [CSetFromFile "missing.png" [("color_space", "RGB_D65_SRG_Rel_Lin")]].
Proof.
  apply (proj2 (proj2 (reads_share_hints Demo.env
                         ["butteraugli"; "missing.png"; "dist.png";
                          "--colorspace"; "RGB_D65_SRG_Rel_Lin"]))).
  - simpl. lia.
  - reflexivity.
Defined.

(** X3: a heat map is rendered only when [--distmap] gave a name, from
    the difference map of the comparison and with the thresholds
    [ButteraugliFuzzyInverse(1.5)] and [ButteraugliFuzzyInverse(0.5)];
    the only file the tool writes is the one named by [--distmap], and
    what it writes there is the PNG encoding of that heat map.  Without
    [--distmap] no threshold is computed and nothing is rendered,
    encoded or written. *)
Theorem heatmap_only_on_request {ImageBundle ImageF Image3B PaddedBytes : Type}
    (env : Env ImageBundle ImageF Image3B PaddedBytes) (argv : list string) :
  (forall m good bad,
     In (CHeatMap m good bad) (calls (snd (run env argv))) ->
     distmap (parse_options argv) <> "" /\
     good = ButteraugliFuzzyInverse env 1.5%Q /\
     bad = ButteraugliFuzzyInverse env 0.5%Q /\
     exists io1 io2, comparable env argv io1 io2 /\
       m = snd (ButteraugliDistance env (Main io1) (Main io2) 0.8%Q)) /\
  (forall bytes filename,
     In (CWriteFile bytes filename) (calls (snd (run env argv))) ->
     filename = distmap (parse_options argv) /\ filename <> "" /\
     exists io1 io2, comparable env argv io1 io2 /\
       EncodeImagePNG env (heatmap_image env io1 io2) = (true, bytes)) /\
  (distmap (parse_options argv) = "" ->
   forall c, In c (calls (snd (run env argv))) ->
     match c with
     | CFuzzyInverse _ | CHeatMap _ _ _ | CEncodePNG _ | CWriteFile _ _ => False
     | _ => True
     end).
Proof.
  split; [|split].
  - intros m good bad Hin.
    destruct (calls_shape env argv)
      as [E | [E | [E | (io1 & io2 & C & [[_ E] | [(Hd & _ & E) | (Hd & _ & E)]])]]];
      rewrite E in Hin; unfold comparison_calls, heatmap_calls in Hin;
      cbn [app In] in Hin;
      repeat (destruct Hin as [Hin | Hin]; [try discriminate Hin|]);
      try contradiction;
      injection Hin as <- <- <-; (split; [exact Hd|]); repeat split; eauto.
  - intros bytes filename Hin.
    destruct (calls_shape env argv)
      as [E | [E | [E | (io1 & io2 & C & [[_ E] | [(Hd & _ & E) | (Hd & Enc & E)]])]]];
      rewrite E in Hin; unfold comparison_calls, heatmap_calls in Hin;
      cbn [app In] in Hin;
      repeat (destruct Hin as [Hin | Hin]; [try discriminate Hin|]);
      try contradiction.
    injection Hin as <- <-. split; [reflexivity|]. split; [exact Hd|].
    exists io1, io2. split; [exact C|].
    destruct (EncodeImagePNG env (heatmap_image env io1 io2)) as [ok b].
    cbn in Enc |- *. now subst.
  - intros Hd c Hin.
    destruct (calls_shape env argv)
      as [E | [E | [E | (io1 & io2 & C & [[_ E] | [(Hn & _ & _) | (Hn & _ & _)]])]]];
      try contradiction;
      rewrite E in Hin; unfold comparison_calls in Hin; cbn [In] in Hin;
      repeat (destruct Hin as [<- | Hin]; [exact I|]); contradiction.
Qed.

Lemma heatmap_only_on_request_witness :
  1.5%Q = ButteraugliFuzzyInverse Demo.env 1.5%Q /\
  0.5%Q = ButteraugliFuzzyInverse Demo.env 0.5%Q.
Proof.
  destruct (proj1 (heatmap_only_on_request Demo.env
                     ["butteraugli"; "ref.png"; "dist.png"; "--distmap"; "heat.png"])
              tt 1.5%Q 0.5%Q) as (_ & G & B & _).
  - vm_compute. do 6 right. left. reflexivity.
  - split; [exact G | exact B].
Defined.

End ToolMoreFacts.

(** ** Transfer functions and colour encodings *)

Module ColorFacts.

Import Color.

Lemma cs_eqb_spec a b : reflect (a = b) (ColorSpace.eqb a b).
Proof. destruct a, b; cbn; constructor; congruence. Qed.

Lemma wp_eqb_spec a b : reflect (a = b) (WhitePoint.eqb a b).
Proof. destruct a, b; cbn; constructor; congruence. Qed.

Lemma pr_eqb_spec a b : reflect (a = b) (Primaries.eqb a b).
Proof. destruct a, b; cbn; constructor; congruence. Qed.

Lemma tf_eqb_spec a b : reflect (a = b) (TransferFunction.eqb a b).
Proof. destruct a, b; cbn; constructor; congruence. Qed.

Lemma xy_differ_false a b : ColorEncoding.xy_differ a b = false <-> a = b.
Proof.
  unfold ColorEncoding.xy_differ. destruct a as [ax ay], b as [bx by']. cbn.
  destruct (Z.eqb_spec ax bx), (Z.eqb_spec ay by'); cbn; split; intros H;
    try discriminate; try reflexivity; try (injection H; intros; contradiction);
    subst; reflexivity.
Qed.

Module TF := CustomTransferFunction.

(** What [IsSame] decides: both are gamma curves with the same
    exponent, or neither is and they name the same function. *)
Lemma IsSame_iff (a b : TF.t) :
  TF.IsSame a b = true <->
  TF.have_gamma_ a = TF.have_gamma_ b /\
  (if TF.have_gamma_ a then TF.gamma_ a = TF.gamma_ b
   else TF.transfer_function_ a = TF.transfer_function_ b).
Proof.
  unfold TF.IsSame.
  destruct (TF.have_gamma_ a), (TF.have_gamma_ b); cbn;
    try (split; [discriminate | intros [? _]; discriminate]).
  - destruct (N.eqb_spec (TF.gamma_ a) (TF.gamma_ b)); cbn; intuition congruence.
  - destruct (tf_eqb_spec (TF.transfer_function_ a) (TF.transfer_function_ b)); cbn;
      intuition congruence.
Qed.

Lemma IsSame_refl (a : TF.t) : TF.IsSame a a = true.
Proof.
  apply IsSame_iff. split; [reflexivity|]. destruct (TF.have_gamma_ a); reflexivity.
Qed.

Lemma IsSame_sym_true (a b : TF.t) : TF.IsSame a b = true -> TF.IsSame b a = true.
Proof.
  intros H. apply IsSame_iff in H. destruct H as [Hg Hv].
  apply IsSame_iff. split; [congruence|]. rewrite <- Hg.
  destruct (TF.have_gamma_ a); congruence.
Qed.

Lemma IsSame_sym (a b : TF.t) : TF.IsSame a b = TF.IsSame b a.
Proof.
  destruct (TF.IsSame a b) eqn:Eab, (TF.IsSame b a) eqn:Eba; try reflexivity;
    [apply IsSame_sym_true in Eab | apply IsSame_sym_true in Eba]; congruence.
Qed.

Lemma IsSame_trans (a b c : TF.t) :
  TF.IsSame a b = true -> TF.IsSame b c = true -> TF.IsSame a c = true.
Proof.
  intros Hab Hbc. apply IsSame_iff in Hab, Hbc. apply IsSame_iff.
  destruct Hab as [Hg1 Hv1], Hbc as [Hg2 Hv2]. split; [congruence|].
  rewrite <- Hg1 in Hv2. destruct (TF.have_gamma_ a); congruence.
Qed.

Lemma IsSame_tests (a b : TF.t) :
  TF.IsSame a b = true ->
  TF.IsSRGB a = TF.IsSRGB b /\ TF.IsLinear a = TF.IsLinear b.
Proof.
  intros Hab. apply IsSame_iff in Hab. destruct Hab as [Hg Hv].
  unfold TF.IsSRGB, TF.IsLinear. rewrite <- Hg.
  destruct (TF.have_gamma_ a); cbn; [|rewrite Hv]; split; reflexivity.
Qed.

(** X4: [IsSame] is an equivalence on transfer functions, and two
    transfer functions it identifies answer every query alike:
    [IsGamma], [GetTransferFunction] and the five [Is...] tests. *)
Theorem IsSame_equivalence (a b c : TF.t) :
  TF.IsSame a a = true /\
  TF.IsSame a b = TF.IsSame b a /\
  (TF.IsSame a b = true -> TF.IsSame b c = true -> TF.IsSame a c = true) /\
  (TF.IsSame a b = true ->
   TF.IsGamma a = TF.IsGamma b /\
   TF.GetTransferFunction a = TF.GetTransferFunction b /\
   TF.IsUnknown a = TF.IsUnknown b /\ TF.IsSRGB a = TF.IsSRGB b /\
   TF.IsLinear a = TF.IsLinear b /\ TF.IsPQ a = TF.IsPQ b /\
   TF.IsHLG a = TF.IsHLG b).
Proof.
  split; [apply IsSame_refl|]. split; [apply IsSame_sym|].
  split; [apply IsSame_trans|].
  intros Hab. apply IsSame_iff in Hab. destruct Hab as [Hg Hv].
  unfold TF.IsGamma, TF.GetTransferFunction, TF.IsGamma, TF.IsUnknown, TF.IsSRGB,
    TF.IsLinear, TF.IsPQ, TF.IsHLG.
  rewrite <- Hg. destruct (TF.have_gamma_ a); cbn.
  - repeat split; reflexivity.
  - rewrite Hv. repeat split; reflexivity.
Qed.

Lemma IsSame_equivalence_witness :
  TF.IsSame
    {| TF.nonserialized_color_space := ColorSpace.kRGB; TF.have_gamma_ := false;
       TF.gamma_ := 4545455; TF.transfer_function_ := TransferFunction.kPQ |}
    {| TF.nonserialized_color_space := ColorSpace.kGray; TF.have_gamma_ := false;
       TF.gamma_ := 0; TF.transfer_function_ := TransferFunction.kPQ |} = true /\
  TF.IsPQ
    {| TF.nonserialized_color_space := ColorSpace.kRGB; TF.have_gamma_ := false;
       TF.gamma_ := 4545455; TF.transfer_function_ := TransferFunction.kPQ |} =
  TF.IsPQ
    {| TF.nonserialized_color_space := ColorSpace.kGray; TF.have_gamma_ := false;
       TF.gamma_ := 0; TF.transfer_function_ := TransferFunction.kPQ |}.
Proof.
  split; [reflexivity|].
  apply (proj2 (proj2 (proj2 (IsSame_equivalence
    {| TF.nonserialized_color_space := ColorSpace.kRGB; TF.have_gamma_ := false;
       TF.gamma_ := 4545455; TF.transfer_function_ := TransferFunction.kPQ |}
    {| TF.nonserialized_color_space := ColorSpace.kGray; TF.have_gamma_ := false;
       TF.gamma_ := 0; TF.transfer_function_ := TransferFunction.kPQ |}
    {| TF.nonserialized_color_space := ColorSpace.kGray; TF.have_gamma_ := false;
       TF.gamma_ := 0; TF.transfer_function_ := TransferFunction.kPQ |})))).
  reflexivity.
Defined.

(** X5: a transfer function passes at most one of the five tests
    [IsUnknown], [IsSRGB], [IsLinear], [IsPQ], [IsHLG], and none of them
    when it is a gamma curve; after [SetTransferFunction(tf)] it is no
    gamma curve, [GetTransferFunction] gives [tf] back, and the stored
    exponent and colour space are untouched. *)
Theorem transfer_function_tests (f : TF.t) (tf : TransferFunction.t) :
  length (filter (fun b : bool => b)
            [TF.IsUnknown f; TF.IsSRGB f; TF.IsLinear f; TF.IsPQ f; TF.IsHLG f]) <= 1 /\
  (TF.IsGamma f = true ->
   TF.GetTransferFunction f = None /\
   filter (fun b : bool => b)
     [TF.IsUnknown f; TF.IsSRGB f; TF.IsLinear f; TF.IsPQ f; TF.IsHLG f] = []) /\
  TF.IsGamma (TF.SetTransferFunction f tf) = false /\
  TF.GetTransferFunction (TF.SetTransferFunction f tf) = Some tf /\
  TF.gamma_ (TF.SetTransferFunction f tf) = TF.gamma_ f /\
  TF.nonserialized_color_space (TF.SetTransferFunction f tf) =
    TF.nonserialized_color_space f.
Proof.
  unfold TF.IsUnknown, TF.IsSRGB, TF.IsLinear, TF.IsPQ, TF.IsHLG, TF.IsGamma,
    TF.GetTransferFunction, TF.IsGamma, TF.SetTransferFunction.
  destruct f as [cs g e fn]. cbn [TF.have_gamma_ TF.transfer_function_ TF.gamma_
                                 TF.nonserialized_color_space].
  split; [destruct g, fn; cbn; lia|].
  split; [intros ->; cbn; auto|].
  repeat split.
Qed.

Lemma transfer_function_tests_witness :
  TF.GetTransferFunction
    {| TF.nonserialized_color_space := ColorSpace.kRGB; TF.have_gamma_ := true;
       TF.gamma_ := 4545455; TF.transfer_function_ := TransferFunction.kSRGB |} = None.
Proof.
  apply (proj1 (proj2 (transfer_function_tests
    {| TF.nonserialized_color_space := ColorSpace.kRGB; TF.have_gamma_ := true;
       TF.gamma_ := 4545455; TF.transfer_function_ := TransferFunction.kSRGB |}
    TransferFunction.kSRGB))).
  reflexivity.
Defined.

Module CE := ColorEncoding.

Lemma HasPrimaries_by_space a b :
  CE.color_space_ a = CE.color_space_ b -> CE.HasPrimaries a = CE.HasPrimaries b.
Proof. unfold CE.HasPrimaries, CE.IsGray. now intros ->. Qed.

(** What [SameColorSpace] decides. *)
Lemma SameColorSpace_decides (a b : CE.t) :
  CE.SameColorSpace a b = true <->
  CE.color_space_ a = CE.color_space_ b /\
  CE.white_point a = CE.white_point b /\
  (CE.white_point a = WhitePoint.kCustom -> CE.white_ a = CE.white_ b) /\
  (CE.HasPrimaries a = true ->
   CE.primaries a = CE.primaries b /\
   (CE.primaries a = Primaries.kCustom ->
    CE.red_ a = CE.red_ b /\ CE.green_ a = CE.green_ b /\ CE.blue_ a = CE.blue_ b)).
Proof.
  unfold CE.SameColorSpace.
  destruct (cs_eqb_spec (CE.color_space_ a) (CE.color_space_ b)) as [Ecs|Ecs]; cbn [negb];
    [|split; [discriminate | intros [? _]; contradiction]].
  destruct (wp_eqb_spec (CE.white_point a) (CE.white_point b)) as [Ewp|Ewp]; cbn [negb];
    [|split; [discriminate | intros (_ & ? & _); contradiction]].
  rewrite <- (HasPrimaries_by_space a b Ecs), Bool.eqb_reflx. cbn [negb].
  destruct (wp_eqb_spec (CE.white_point a) WhitePoint.kCustom) as [Ec|Ec]; cbn [andb].
  - destruct (CE.xy_differ (CE.white_ a) (CE.white_ b)) eqn:Ew.
    + split; [discriminate|]. intros (_ & _ & Hw & _).
      apply xy_differ_false in Hw; [congruence | exact Ec].
    + apply xy_differ_false in Ew.
      destruct (CE.HasPrimaries a); [|intuition congruence].
      destruct (pr_eqb_spec (CE.primaries a) (CE.primaries b)) as [Ep|Ep]; cbn [negb];
        [|split; [discriminate | intros (_ & _ & _ & Hp); destruct (Hp eq_refl); contradiction]].
      destruct (pr_eqb_spec (CE.primaries a) Primaries.kCustom) as [Epc|Epc];
        [|intuition congruence].
      destruct (CE.xy_differ (CE.red_ a) (CE.red_ b)) eqn:Er;
        [split; [discriminate|]; intros (_ & _ & _ & Hp);
         destruct (Hp eq_refl) as [_ Hq]; destruct (Hq Epc) as (Hr & _);
         apply xy_differ_false in Hr; congruence|].
      destruct (CE.xy_differ (CE.green_ a) (CE.green_ b)) eqn:Eg;
        [split; [discriminate|]; intros (_ & _ & _ & Hp);
         destruct (Hp eq_refl) as [_ Hq]; destruct (Hq Epc) as (_ & Hg & _);
         apply xy_differ_false in Hg; congruence|].
      destruct (CE.xy_differ (CE.blue_ a) (CE.blue_ b)) eqn:Eb;
        [split; [discriminate|]; intros (_ & _ & _ & Hp);
         destruct (Hp eq_refl) as [_ Hq]; destruct (Hq Epc) as (_ & _ & Hb);
         apply xy_differ_false in Hb; congruence|].
      apply xy_differ_false in Er, Eg, Eb. intuition congruence.
  - destruct (CE.HasPrimaries a); [|intuition congruence].
    destruct (pr_eqb_spec (CE.primaries a) (CE.primaries b)) as [Ep|Ep]; cbn [negb];
      [|split; [discriminate | intros (_ & _ & _ & Hp); destruct (Hp eq_refl); contradiction]].
    destruct (pr_eqb_spec (CE.primaries a) Primaries.kCustom) as [Epc|Epc];
      [|intuition congruence].
    destruct (CE.xy_differ (CE.red_ a) (CE.red_ b)) eqn:Er;
      [split; [discriminate|]; intros (_ & _ & _ & Hp);
       destruct (Hp eq_refl) as [_ Hq]; destruct (Hq Epc) as (Hr & _);
       apply xy_differ_false in Hr; congruence|].
    destruct (CE.xy_differ (CE.green_ a) (CE.green_ b)) eqn:Eg;
      [split; [discriminate|]; intros (_ & _ & _ & Hp);
       destruct (Hp eq_refl) as [_ Hq]; destruct (Hq Epc) as (_ & Hg & _);
       apply xy_differ_false in Hg; congruence|].
    destruct (CE.xy_differ (CE.blue_ a) (CE.blue_ b)) eqn:Eb;
      [split; [discriminate|]; intros (_ & _ & _ & Hp);
       destruct (Hp eq_refl) as [_ Hq]; destruct (Hq Epc) as (_ & _ & Hb);
       apply xy_differ_false in Hb; congruence|].
    apply xy_differ_false in Er, Eg, Eb. intuition congruence.
Qed.

(** X6: [SameColorSpace] holds exactly when the colour spaces and white
    points agree, the custom white coordinates agree if the white point
    is custom, and, for an encoding with primaries, the primaries agree
    and so do the three custom coordinates if they are custom.  Nothing
    else is looked at: not the transfer function, the rendering intent,
    the ICC bytes, nor the primaries of an encoding without primaries;
    and the comparison of [HasPrimaries()] can never be what fails. *)
Theorem SameColorSpace_iff (a b : CE.t) (icc : PaddedBytes) (want : bool) :
  (CE.SameColorSpace a b = true <->
   CE.color_space_ a = CE.color_space_ b /\
   CE.white_point a = CE.white_point b /\
   (CE.white_point a = WhitePoint.kCustom -> CE.white_ a = CE.white_ b) /\
   (CE.HasPrimaries a = true ->
    CE.primaries a = CE.primaries b /\
    (CE.primaries a = Primaries.kCustom ->
     CE.red_ a = CE.red_ b /\ CE.green_ a = CE.green_ b /\ CE.blue_ a = CE.blue_ b))) /\
  CE.SameColorSpace (CE.set_icc a icc) b = CE.SameColorSpace a b /\
  CE.SameColorSpace (CE.set_want_icc a want) b = CE.SameColorSpace a b /\
  (CE.color_space_ a = CE.color_space_ b -> CE.HasPrimaries a = CE.HasPrimaries b).
Proof.
  split; [apply SameColorSpace_decides|].
  split; [reflexivity|]. split; [reflexivity|].
  apply HasPrimaries_by_space.
Qed.

(** X7: [SameColorSpace] and [SameColorEncoding] are equivalences on
    colour encodings: reflexive, symmetric and transitive. *)
Theorem SameColorSpace_equivalence (a b c : CE.t) :
  CE.SameColorSpace a a = true /\
  CE.SameColorSpace a b = CE.SameColorSpace b a /\
  (CE.SameColorSpace a b = true -> CE.SameColorSpace b c = true ->
   CE.SameColorSpace a c = true) /\
  CE.SameColorEncoding a a = true /\
  CE.SameColorEncoding a b = CE.SameColorEncoding b a /\
  (CE.SameColorEncoding a b = true -> CE.SameColorEncoding b c = true ->
   CE.SameColorEncoding a c = true).
Proof.
  assert (Hrefl : forall u, CE.SameColorSpace u u = true).
  { intros u. apply SameColorSpace_decides. intuition. }
  assert (Hsym1 : forall u v, CE.SameColorSpace u v = true -> CE.SameColorSpace v u = true).
  { intros u v H. apply SameColorSpace_decides in H. apply SameColorSpace_decides.
    destruct H as (Hcs & Hwp & Hw & Hp).
    rewrite <- (HasPrimaries_by_space u v Hcs).
    split; [congruence|]. split; [congruence|].
    split; [intros E; symmetry; apply Hw; congruence|].
    intros HP. destruct (Hp HP) as [Hpr Hc]. split; [congruence|].
    intros E. destruct Hc as (? & ? & ?); [congruence|]. repeat split; congruence. }
  assert (Hsym : forall u v, CE.SameColorSpace u v = CE.SameColorSpace v u).
  { intros u v.
    destruct (CE.SameColorSpace u v) eqn:E1, (CE.SameColorSpace v u) eqn:E2;
      try reflexivity; [apply Hsym1 in E1 | apply Hsym1 in E2]; congruence. }
  assert (Htrans : forall u v w, CE.SameColorSpace u v = true ->
            CE.SameColorSpace v w = true -> CE.SameColorSpace u w = true).
  { intros u v w H1 H2. apply SameColorSpace_decides in H1, H2. apply SameColorSpace_decides.
    destruct H1 as (Hcs1 & Hwp1 & Hw1 & Hp1), H2 as (Hcs2 & Hwp2 & Hw2 & Hp2).
    rewrite <- (HasPrimaries_by_space u v Hcs1) in Hp2.
    split; [congruence|]. split; [congruence|].
    split; [intros E; rewrite Hw1 by exact E; apply Hw2; congruence|].
    intros HP. destruct (Hp1 HP) as [Hpr1 Hc1], (Hp2 HP) as [Hpr2 Hc2].
    split; [congruence|]. intros E.
    destruct (Hc1 E) as (? & ? & ?). destruct Hc2 as (? & ? & ?); [congruence|].
    repeat split; congruence. }
  split; [apply Hrefl|]. split; [apply Hsym|]. split; [apply Htrans|].
  unfold CE.SameColorEncoding.
  split; [rewrite Hrefl; apply IsSame_refl|].
  split.
  - rewrite (Hsym a b).
    now rewrite (IsSame_sym (CE.tf a) (CE.tf b)).
  - intros H1 H2. apply andb_true_iff in H1, H2. apply andb_true_iff.
    destruct H1 as [S1 T1], H2 as [S2 T2]. split; [eapply Htrans; eassumption|].
    exact (IsSame_trans (CE.tf a) (CE.tf b) (CE.tf c) T1 T2).
Qed.

(** X8: for encodings that are not gray, [SameColorEncoding] preserves
    [IsSRGB] and [IsLinearSRGB].  For gray ones it need not: the two
    tests look at [primaries], which [SameColorEncoding] skips when
    there are no primaries. *)
Theorem SameColorEncoding_keeps_sRGB (a b : CE.t) :
  (CE.SameColorEncoding a b = true -> CE.IsGray a = false ->
   CE.IsSRGB a = CE.IsSRGB b /\ CE.IsLinearSRGB a = CE.IsLinearSRGB b) /\
  (exists g h, CE.IsGray g = true /\ CE.SameColorEncoding g h = true /\
               CE.IsSRGB g = true /\ CE.IsSRGB h = false).
Proof.
  split.
  - intros H G. unfold CE.SameColorEncoding in H. apply andb_true_iff in H.
    destruct H as [S T]. apply SameColorSpace_decides in S.
    destruct S as (Hcs & Hwp & _ & Hp).
    destruct (IsSame_tests (CE.tf a) (CE.tf b) T) as [Hs Hl].
    assert (Gb : CE.IsGray b = false) by (unfold CE.IsGray in *; congruence).
    unfold CE.IsSRGB, CE.IsLinearSRGB. rewrite G, Gb, <- Hcs, <- Hwp, <- Hs, <- Hl.
    cbn [negb andb].
    destruct (cs_eqb_spec (CE.color_space_ a) ColorSpace.kRGB) as [E|E]; cbn [negb];
      [|split; reflexivity].
    assert (HP : CE.HasPrimaries a = true).
    { unfold CE.HasPrimaries. rewrite G, E. reflexivity. }
    destruct (Hp HP) as [-> _]. split; reflexivity.
  - pose (f := {| TF.nonserialized_color_space := ColorSpace.kGray;
                  TF.have_gamma_ := false; TF.gamma_ := 0;
                  TF.transfer_function_ := TransferFunction.kSRGB |}).
    pose (g := fun p =>
      {| CE.all_default := false; CE.white_point := WhitePoint.kD65; CE.primaries := p;
         CE.tf := f; CE.rendering_intent := RenderingIntent.kRelative;
         CE.want_icc_ := false; CE.icc_ := []; CE.color_space_ := ColorSpace.kGray;
         CE.white_ := {| x := 0; y := 0 |}; CE.red_ := {| x := 0; y := 0 |};
         CE.green_ := {| x := 0; y := 0 |}; CE.blue_ := {| x := 0; y := 0 |} |}).
    exists (g Primaries.kSRGB), (g Primaries.kP3). repeat split.
Qed.

(** X9: no encoding is both sRGB and linear sRGB; one that passes
    either test is RGB or gray with white point D65 and sRGB primaries,
    has no gamma curve, and its transfer function is the one tested. *)
Theorem sRGB_tests (c : CE.t) :
  (CE.IsSRGB c = true -> CE.IsLinearSRGB c = false) /\
  (CE.IsSRGB c = true \/ CE.IsLinearSRGB c = true ->
   (CE.color_space_ c = ColorSpace.kRGB \/ CE.color_space_ c = ColorSpace.kGray) /\
   CE.white_point c = WhitePoint.kD65 /\
   CE.primaries c = Primaries.kSRGB /\
   TF.IsGamma (CE.tf c) = false /\
   TF.GetTransferFunction (CE.tf c) =
     Some (if CE.IsSRGB c then TransferFunction.kSRGB else TransferFunction.kLinear)).
Proof.
  unfold CE.IsSRGB, CE.IsLinearSRGB, CE.IsGray, TF.IsSRGB, TF.IsLinear,
    TF.GetTransferFunction, TF.IsGamma.
  destruct (cs_eqb_spec (CE.color_space_ c) ColorSpace.kGray) as [G|G],
           (cs_eqb_spec (CE.color_space_ c) ColorSpace.kRGB) as [R|R];
    cbn [negb andb]; try (split; [discriminate | intros [?|?]; discriminate]);
    (destruct (wp_eqb_spec (CE.white_point c) WhitePoint.kD65) as [W|W]; cbn [negb];
       [|split; [discriminate | intros [?|?]; discriminate]]);
    (destruct (pr_eqb_spec (CE.primaries c) Primaries.kSRGB) as [P|P]; cbn [negb];
       [|split; [discriminate | intros [?|?]; discriminate]]);
    (destruct (TF.have_gamma_ (CE.tf c)); cbn [negb andb];
       [split; [discriminate | intros [?|?]; discriminate]|]);
    destruct (TF.transfer_function_ (CE.tf c)); cbn;
    (split; [try discriminate; reflexivity|]);
    intros [?|?]; try discriminate; repeat split; auto.
Qed.

Lemma sRGB_tests_witness :
  CE.IsLinearSRGB
    {| CE.all_default := false; CE.white_point := WhitePoint.kD65;
       CE.primaries := Primaries.kSRGB;
       CE.tf := {| TF.nonserialized_color_space := ColorSpace.kRGB;
                   TF.have_gamma_ := false; TF.gamma_ := 0;
                   TF.transfer_function_ := TransferFunction.kSRGB |};
       CE.rendering_intent := RenderingIntent.kRelative;
       CE.want_icc_ := false; CE.icc_ := []; CE.color_space_ := ColorSpace.kRGB;
       CE.white_ := {| x := 0; y := 0 |}; CE.red_ := {| x := 0; y := 0 |};
       CE.green_ := {| x := 0; y := 0 |}; CE.blue_ := {| x := 0; y := 0 |} |} = false.
Proof.
  apply (proj1 (sRGB_tests _)). reflexivity.
Defined.

(** X10: called with gray or RGB, [SetSRGB] hands [CreateICC] an
    encoding that passes [IsSRGB], has no ICC bytes, the requested
    rendering intent and colour space (one channel for gray, three for
    RGB), and returns what [CreateICC] returns.  Unlike
    [SetColorSpace] it does not update the colour space kept inside the
    transfer function; with any other colour space the assertion
    fails. *)
Theorem SetSRGB_builds_sRGB (CreateICC : CE.t -> bool * CE.t)
    (c : CE.t) (cs : ColorSpace.t) (ri : RenderingIntent.t) :
  (cs = ColorSpace.kGray \/ cs = ColorSpace.kRGB ->
   exists built,
     CE.SetSRGB CreateICC c cs ri = Some (CreateICC built) /\
     CE.IsSRGB built = true /\
     CE.ICC built = [] /\
     CE.rendering_intent built = ri /\
     CE.GetColorSpace built = cs /\
     CE.Channels built = (if ColorSpace.eqb cs ColorSpace.kGray then 1 else 3)%N /\
     TF.nonserialized_color_space (CE.tf built) =
       TF.nonserialized_color_space (CE.tf c) /\
     TF.nonserialized_color_space (CE.tf (CE.SetColorSpace c cs)) = cs) /\
  (cs <> ColorSpace.kGray -> cs <> ColorSpace.kRGB ->
   CE.SetSRGB CreateICC c cs ri = None).
Proof.
  split.
  - intros H. exists (CE.srgb_fields c cs ri).
    destruct H as [-> | ->]; repeat split.
  - intros G R. unfold CE.SetSRGB. destruct cs; try reflexivity; contradiction.
Qed.

Lemma SetSRGB_builds_sRGB_witness :
  CE.SetSRGB (fun c => (true, c))
    {| CE.all_default := false; CE.white_point := WhitePoint.kE;
       CE.primaries := Primaries.kP3;
       CE.tf := {| TF.nonserialized_color_space := ColorSpace.kRGB;
                   TF.have_gamma_ := true; TF.gamma_ := 4545455;
                   TF.transfer_function_ := TransferFunction.kPQ |};
       CE.rendering_intent := RenderingIntent.kPerceptual;
       CE.want_icc_ := false; CE.icc_ := [Byte.x00]; CE.color_space_ := ColorSpace.kRGB;
       CE.white_ := {| x := 0; y := 0 |}; CE.red_ := {| x := 0; y := 0 |};
       CE.green_ := {| x := 0; y := 0 |}; CE.blue_ := {| x := 0; y := 0 |} |}
    ColorSpace.kXYB RenderingIntent.kRelative = None.
Proof.
  apply (proj2 (SetSRGB_builds_sRGB _ _ _ _)); discriminate.
Defined.

(** X11: [SetICC] with no bytes returns false and changes nothing, so
    an old profile stays; with bytes that [SetFieldsFromICC] rejects it
    returns false and leaves no ICC bytes at all; with bytes it accepts
    it returns true and [WantICC()] holds afterwards.  Whenever it
    returns true the bytes were not empty and [WantICC()] holds. *)
Theorem SetICC_outcomes (SetFieldsFromICC : CE.t -> bool * CE.t)
    (c : CE.t) (icc : PaddedBytes) :
  CE.SetICC SetFieldsFromICC c [] = (false, c) /\
  (icc <> [] -> fst (SetFieldsFromICC (CE.set_icc c icc)) = false ->
   fst (CE.SetICC SetFieldsFromICC c icc) = false /\
   CE.ICC (snd (CE.SetICC SetFieldsFromICC c icc)) = []) /\
  (icc <> [] -> fst (SetFieldsFromICC (CE.set_icc c icc)) = true ->
   fst (CE.SetICC SetFieldsFromICC c icc) = true /\
   CE.WantICC (snd (CE.SetICC SetFieldsFromICC c icc)) = true /\
   CE.ICC (snd (CE.SetICC SetFieldsFromICC c icc)) =
     CE.ICC (snd (SetFieldsFromICC (CE.set_icc c icc)))) /\
  (fst (CE.SetICC SetFieldsFromICC c icc) = true ->
   icc <> [] /\ CE.WantICC (snd (CE.SetICC SetFieldsFromICC c icc)) = true).
Proof.
  split; [reflexivity|].
  unfold CE.SetICC. destruct icc as [|b icc].
  { split; [intros H; contradiction|]. split; [intros H; contradiction|]. discriminate. }
  destruct (SetFieldsFromICC (CE.set_icc c (b :: icc))) as [ok c']. cbn [fst snd].
  destruct ok; cbn [negb fst snd].
  - split; [discriminate|]. split; [intros _ _; repeat split|].
    intros _. split; [discriminate | reflexivity].
  - split; [intros _ _; split; reflexivity|]. split; discriminate.
Qed.

Lemma SetICC_outcomes_witness :
  fst (CE.SetICC (fun c => (false, c))
         {| CE.all_default := false; CE.white_point := WhitePoint.kD65;
            CE.primaries := Primaries.kSRGB;
            CE.tf := {| TF.nonserialized_color_space := ColorSpace.kRGB;
                        TF.have_gamma_ := false; TF.gamma_ := 0;
                        TF.transfer_function_ := TransferFunction.kSRGB |};
            CE.rendering_intent := RenderingIntent.kRelative;
            CE.want_icc_ := false; CE.icc_ := [Byte.x01; Byte.x02];
            CE.color_space_ := ColorSpace.kRGB;
            CE.white_ := {| x := 0; y := 0 |}; CE.red_ := {| x := 0; y := 0 |};
            CE.green_ := {| x := 0; y := 0 |}; CE.blue_ := {| x := 0; y := 0 |} |}
         [Byte.xff]) = false /\
  CE.ICC (snd (CE.SetICC (fun c => (false, c))
         {| CE.all_default := false; CE.white_point := WhitePoint.kD65;
            CE.primaries := Primaries.kSRGB;
            CE.tf := {| TF.nonserialized_color_space := ColorSpace.kRGB;
                        TF.have_gamma_ := false; TF.gamma_ := 0;
                        TF.transfer_function_ := TransferFunction.kSRGB |};
            CE.rendering_intent := RenderingIntent.kRelative;
            CE.want_icc_ := false; CE.icc_ := [Byte.x01; Byte.x02];
            CE.color_space_ := ColorSpace.kRGB;
            CE.white_ := {| x := 0; y := 0 |}; CE.red_ := {| x := 0; y := 0 |};
            CE.green_ := {| x := 0; y := 0 |}; CE.blue_ := {| x := 0; y := 0 |} |}
         [Byte.xff])) = [].
Proof.
  apply (proj1 (proj2 (SetICC_outcomes (fun c => (false, c)) _ [Byte.xff]))).
  - discriminate.
  - reflexivity.
Defined.

(** X12: an encoding has primaries exactly when its colour space is RGB
    or unknown, and then it has three channels and no implicit white
    point; [ImplicitWhitePoint] succeeds exactly for XYB, where it sets
    the white point to D65, and otherwise leaves the encoding as it
    was. *)
Theorem primaries_and_white_point (c : CE.t) :
  (CE.HasPrimaries c = true <->
   CE.color_space_ c = ColorSpace.kRGB \/ CE.color_space_ c = ColorSpace.kUnknown) /\
  (CE.HasPrimaries c = true ->
   CE.Channels c = 3%N /\ CE.ImplicitWhitePoint c = (false, c)) /\
  (fst (CE.ImplicitWhitePoint c) = true <-> CE.color_space_ c = ColorSpace.kXYB) /\
  (fst (CE.ImplicitWhitePoint c) = true ->
   CE.white_point (snd (CE.ImplicitWhitePoint c)) = WhitePoint.kD65 /\
   CE.HasPrimaries c = false /\
   CE.Channels c = 3%N) /\
  (fst (CE.ImplicitWhitePoint c) = false -> snd (CE.ImplicitWhitePoint c) = c) /\
  (CE.Channels c = 1%N <-> CE.IsGray c = true).
Proof.
  unfold CE.HasPrimaries, CE.Channels, CE.ImplicitWhitePoint, CE.IsGray.
  destruct c as [ad wp pr f ri wi ic cs w r g b].
  cbn [CE.color_space_ CE.white_point].
  destruct cs; cbn; repeat split; intros; try discriminate; try reflexivity; auto;
    destruct H; discriminate.
Qed.

Lemma primaries_and_white_point_witness :
  CE.Channels
    {| CE.all_default := false; CE.white_point := WhitePoint.kD65;
       CE.primaries := Primaries.kP3;
       CE.tf := {| TF.nonserialized_color_space := ColorSpace.kRGB;
                   TF.have_gamma_ := false; TF.gamma_ := 0;
                   TF.transfer_function_ := TransferFunction.kPQ |};
       CE.rendering_intent := RenderingIntent.kRelative;
       CE.want_icc_ := false; CE.icc_ := []; CE.color_space_ := ColorSpace.kRGB;
       CE.white_ := {| x := 0; y := 0 |}; CE.red_ := {| x := 0; y := 0 |};
       CE.green_ := {| x := 0; y := 0 |}; CE.blue_ := {| x := 0; y := 0 |} |} = 3%N.
Proof.
  apply (proj1 (proj2 (primaries_and_white_point _))). reflexivity.
Defined.

End ColorFacts.

(** ** The intensity target and the in-memory streams *)

Module ExrFacts.

Import Exr.

(** X13: a target the user gave (one that is not zero) is always the
    one used, whatever the file says; otherwise the file's white
    luminance is used, and the default only when there is neither.  A
    warning is issued exactly when both sources are present or none
    is. *)
Theorem intensity_target_priority (kDefault target_nits : Q) (white_luminance : option Q) :
  (nonzero target_nits = true ->
   fst (GetIntensityTarget kDefault target_nits white_luminance) = target_nits) /\
  (nonzero target_nits = false ->
   fst (GetIntensityTarget kDefault target_nits white_luminance) =
     match white_luminance with Some l => l | None => kDefault end) /\
  (snd (GetIntensityTarget kDefault target_nits white_luminance) = [] <->
   (nonzero target_nits = true /\ white_luminance = None) \/
   (nonzero target_nits = false /\ white_luminance <> None)).
Proof.
  unfold GetIntensityTarget.
  destruct white_luminance as [l|], (nonzero target_nits); cbn;
    (split; [try discriminate; reflexivity|]);
    (split; [try discriminate; reflexivity|]);
    split; try discriminate; try (intros [[? ?]|[? ?]]; try discriminate; congruence);
    intros _; [right | left]; split; congruence.
Qed.

Lemma intensity_target_priority_witness :
  fst (GetIntensityTarget 255 80 (Some 1000%Q)) = 80%Q.
Proof.
  apply (proj1 (intensity_target_priority 255 80 (Some 1000%Q))). reflexivity.
Defined.

(** *** Reading *)

Lemma firstn_skipn_add {A} (l : list A) p n m :
  firstn (n + m) (skipn p l) = firstn n (skipn p l) ++ firstn m (skipn (p + n) l).
Proof.
  rewrite <- (firstn_skipn n (skipn p l)) at 1.
  rewrite skipn_skipn, (Nat.add_comm n p).
  assert (Hl : length (firstn n (skipn p l)) <= n) by apply firstn_le_length.
  destruct (Nat.le_gt_cases n (length (skipn p l))) as [H|H].
  - rewrite firstn_app, firstn_firstn, firstn_length_le by exact H.
    replace (Init.Nat.min (n + m) n) with n by lia.
    replace (n + m - n) with m by lia. reflexivity.
  - rewrite (firstn_all2 (n := n)) by lia.
    rewrite length_skipn in H.
    rewrite (skipn_all2 (n := p + n)) by lia.
    rewrite !firstn_nil, app_nil_r. apply firstn_all2. rewrite length_skipn. lia.
Qed.

(** X14: two reads in a row give what one read of the total count
    gives: the bytes of the first followed by those of the second, the
    flag of the second, the same final position. *)
Theorem read_read (s s1 s2 : InMemoryIStream) (n m : nat) (c1 c2 : Bytes) (f1 f2 : bool) :
  read s n = Some (c1, f1, s1) ->
  read s1 m = Some (c2, f2, s2) ->
  read s (n + m) = Some (c1 ++ c2, f2, s2).
Proof.
  unfold read, readMemoryMapped.
  destruct (Nat.leb_spec (ipos s + n) (length (ibytes s))) as [H1|H1]; [|discriminate].
  intros E1. injection E1 as <- <- <-. cbn [ibytes ipos].
  destruct (Nat.leb_spec (ipos s + n + m) (length (ibytes s))) as [H2|H2]; [|discriminate].
  intros E2. injection E2 as <- <- <-.
  destruct (Nat.leb_spec (ipos s + (n + m)) (length (ibytes s))) as [H3|H3]; [|lia].
  cbn [ibytes ipos]. rewrite firstn_skipn_add, Nat.add_assoc. reflexivity.
Qed.

Lemma read_read_witness :
  read (open_in [Byte.x76; Byte.x2f; Byte.x31; Byte.x01]) (1 + 3) =
  Some ([Byte.x76] ++ [Byte.x2f; Byte.x31; Byte.x01], false,
        {| ibytes := [Byte.x76; Byte.x2f; Byte.x31; Byte.x01]; ipos := 4 |}).
Proof.
  apply (read_read (open_in [Byte.x76; Byte.x2f; Byte.x31; Byte.x01])
           {| ibytes := [Byte.x76; Byte.x2f; Byte.x31; Byte.x01]; ipos := 1 |}
           _ 1 3 _ _ true false); reflexivity.
Defined.

Lemma read_prefix (bytes : Bytes) (k : nat) :
  k <= length bytes ->
  read (open_in bytes) k =
  Some (firstn k bytes, k <? length bytes, {| ibytes := bytes; ipos := k |}).
Proof.
  intros Hk. unfold read, readMemoryMapped, open_in. cbn [ibytes ipos Nat.add].
  destruct (Nat.leb_spec k (length bytes)); [reflexivity | lia].
Qed.

(** X15: a read of [n] bytes from a fresh stream succeeds exactly when
    the stream holds [n] bytes; it then delivers the first [n] bytes,
    and its flag tells whether bytes remain: a read that takes the last
    byte returns false although all its bytes were delivered. *)
Theorem read_from_start (bytes : Bytes) (n : nat) :
  (n <= length bytes ->
   read (open_in bytes) n =
     Some (firstn n bytes, n <? length bytes, {| ibytes := bytes; ipos := n |})) /\
  (length bytes < n -> read (open_in bytes) n = None) /\
  read (open_in bytes) (length bytes) =
    Some (bytes, false, {| ibytes := bytes; ipos := length bytes |}).
Proof.
  pose proof (read_prefix bytes) as H.
  split; [apply H|]. split.
  - intros Hn. unfold read, readMemoryMapped, open_in. cbn [ibytes ipos Nat.add].
    destruct (Nat.leb_spec n (length bytes)); [lia | reflexivity].
  - rewrite H by lia. rewrite firstn_all, Nat.ltb_irrefl. reflexivity.
Qed.

Lemma read_from_start_witness :
  read (open_in [Byte.x76; Byte.x2f]) 3 = None.
Proof.
  apply (proj1 (proj2 (read_from_start [Byte.x76; Byte.x2f] 3))). simpl. lia.
Defined.

(** X16: for a position below [2^64 - 1], [seekg(pos)] is accepted
    exactly when [pos < size]; [tellg] then gives [pos] and the next
    read delivers the bytes from there.  So the position reached by
    reading a stream to its end cannot be sought: [seekg(tellg())]
    fails there.  At [pos = 2^64 - 1] the sum in the assertion wraps to
    0 and the seek is accepted on every stream, an empty one
    included. *)
Theorem seekg_positions (s : InMemoryIStream) (pos : N) (n : nat) :
  ((pos < 2 ^ 64 - 1)%N -> (pos < N.of_nat (length (ibytes s)))%N ->
   seekg s pos = Some {| ibytes := ibytes s; ipos := N.to_nat pos |} /\
   tellg {| ibytes := ibytes s; ipos := N.to_nat pos |} = N.to_nat pos /\
   (N.to_nat pos + n <= length (ibytes s) ->
    option_map (fun r => fst (fst r))
      (read {| ibytes := ibytes s; ipos := N.to_nat pos |} n) =
      Some (firstn n (skipn (N.to_nat pos) (ibytes s))))) /\
  ((pos < 2 ^ 64 - 1)%N -> (N.of_nat (length (ibytes s)) <= pos)%N ->
   seekg s pos = None) /\
  (forall c f s',
     read s n = Some (c, f, s') -> f = false ->
     (N.of_nat (tellg s') < 2 ^ 64 - 1)%N ->
     seekg s' (N.of_nat (tellg s')) = None) /\
  seekg s (2 ^ 64 - 1) =
    Some {| ibytes := ibytes s; ipos := N.to_nat (2 ^ 64 - 1) |}.
Proof.
  assert (Hsmall : forall q, (q < 2 ^ 64 - 1)%N -> ((q + 1) mod 2 ^ 64 = q + 1)%N).
  { intros q Hq. apply N.mod_small.
    assert (E : (2 ^ 64 = 2 ^ 64 - 1 + 1)%N) by reflexivity.
    rewrite E. lia. }
  split; [|split; [|split]].
  - intros Hp Hlt. unfold seekg. rewrite (Hsmall pos Hp).
    destruct (N.leb_spec (pos + 1) (N.of_nat (length (ibytes s)))); [|lia].
    split; [reflexivity|]. split; [reflexivity|].
    intros Hn. unfold read, readMemoryMapped. cbn [ipos ibytes].
    destruct (Nat.leb_spec (N.to_nat pos + n) (length (ibytes s))); [reflexivity | lia].
  - intros Hp Hge. unfold seekg. rewrite (Hsmall pos Hp).
    destruct (N.leb_spec (pos + 1) (N.of_nat (length (ibytes s)))); [lia | reflexivity].
  - intros c f s' R -> Hp. unfold read, readMemoryMapped in R.
    destruct (Nat.leb_spec (ipos s + n) (length (ibytes s))); [|discriminate].
    injection R as _ Hf <-. cbn [ibytes ipos] in Hf.
    unfold tellg in *. cbn [ibytes ipos] in *.
    apply Nat.ltb_ge in Hf.
    unfold seekg. cbn [ibytes]. rewrite (Hsmall _ Hp).
    destruct (N.leb_spec (N.of_nat (ipos s + n) + 1) (N.of_nat (length (ibytes s))));
      [lia | reflexivity].
  - unfold seekg.
    assert (E : ((2 ^ 64 - 1 + 1) mod 2 ^ 64 = 0)%N) by reflexivity.
    rewrite E.
    destruct (N.leb_spec 0 (N.of_nat (length (ibytes s)))); [reflexivity | lia].
Qed.

Lemma seekg_positions_witness :
  seekg {| ibytes := [Byte.x76; Byte.x2f]; ipos := 0 |} 2 = None.
Proof.
  apply (proj1 (proj2 (seekg_positions {| ibytes := [Byte.x76; Byte.x2f]; ipos := 0 |} 2 0))).
  - reflexivity.
  - simpl. lia.
Defined.

(** *** Writing *)

Section Writing.

Variable fresh : nat -> Byte.byte.

Lemma length_resize bytes size : length (resize fresh bytes size) = size.
Proof.
  unfold resize. rewrite length_app, length_firstn, length_map, length_seq. lia.
Qed.

Lemma resize_keeps bytes size :
  length bytes <= size -> firstn (length bytes) (resize fresh bytes size) = bytes.
Proof.
  intros H. unfold resize. rewrite (firstn_all2 (n := size)) by exact H.
  rewrite firstn_app, firstn_all, Nat.sub_diag, firstn_O, app_nil_r. reflexivity.
Qed.

(** The buffer [write] copies into: long enough for the copy, and the
    old bytes are its beginning. *)
Lemma write_buffer (s : InMemoryOStream) n :
  let bytes := if length (obytes s) <? opos s + n
               then resize fresh (obytes s) (opos s + n) else obytes s in
  length bytes = Nat.max (length (obytes s)) (opos s + n) /\
  firstn (length (obytes s)) bytes = obytes s.
Proof.
  cbv zeta. destruct (Nat.ltb_spec (length (obytes s)) (opos s + n)) as [H|H].
  - rewrite length_resize, resize_keeps by lia. split; [lia | reflexivity].
  - rewrite firstn_all. split; [lia | reflexivity].
Qed.

(** The bytes at the position after a [write] are the ones written. *)
Lemma write_window (s : InMemoryOStream) (c : Bytes) :
  firstn (length c) (skipn (opos s) (obytes (write fresh s c))) = c.
Proof.
  unfold write. cbn [opos obytes].
  destruct (write_buffer s (length c)) as [Hlen _]. cbv zeta in Hlen.
  set (bytes := if length (obytes s) <? opos s + length c
                then resize fresh (obytes s) (opos s + length c) else obytes s) in *.
  assert (Hp : length (firstn (opos s) bytes) = opos s)
    by (rewrite length_firstn; lia).
  rewrite skipn_app, Hp, Nat.sub_diag, skipn_O.
  rewrite (skipn_all2 (n := opos s)) by lia. cbn [app].
  rewrite firstn_app, firstn_all, Nat.sub_diag, firstn_O, app_nil_r. reflexivity.
Qed.

(** X17: [write] moves the position by the number of bytes written;
    the bytes grow to [max(size, pos + n)] and never shrink; the [n]
    bytes at the old position are the ones written; and every byte
    that was there before, outside that window, is unchanged. *)
Theorem write_effect (s : InMemoryOStream) (c : Bytes) :
  tellp (write fresh s c) = tellp s + length c /\
  length (obytes (write fresh s c)) = Nat.max (length (obytes s)) (opos s + length c) /\
  firstn (length c) (skipn (opos s) (obytes (write fresh s c))) = c /\
  (forall i, i < length (obytes s) -> i < opos s \/ opos s + length c <= i ->
     nth_error (obytes (write fresh s c)) i = nth_error (obytes s) i).
Proof.
  unfold write, tellp. cbn [opos obytes].
  destruct (write_buffer s (length c)) as [Hlen Hold]. cbv zeta in Hlen, Hold.
  set (bytes := if length (obytes s) <? opos s + length c
                then resize fresh (obytes s) (opos s + length c) else obytes s) in *.
  assert (Hp : length (firstn (opos s) bytes) = opos s)
    by (rewrite length_firstn; lia).
  split; [reflexivity|]. split; [|split].
  - rewrite !length_app, Hp, length_skipn. lia.
  - apply (write_window s c).
  - intros i Hi Hout.
    assert (Hb : nth_error bytes i = nth_error (obytes s) i).
    { rewrite <- Hold at 1. rewrite nth_error_firstn.
      destruct (Nat.ltb_spec i (length (obytes s))); [reflexivity | lia]. }
    rewrite <- Hb. destruct Hout as [Hlt|Hge].
    + rewrite nth_error_app1 by lia. rewrite nth_error_firstn.
      destruct (Nat.ltb_spec i (opos s)); [reflexivity | lia].
    + rewrite nth_error_app2 by lia. rewrite Hp.
      rewrite nth_error_app2 by lia. rewrite nth_error_skipn. f_equal. lia.
Qed.

(** With the position within the bytes, none of the bytes [resize]
    adds is left in the result. *)
Lemma write_within (l : Bytes) (p : nat) (c : Bytes) :
  p <= length l ->
  write fresh {| obytes := l; opos := p |} c =
  {| obytes := firstn p l ++ c ++ skipn (p + length c) l; opos := p + length c |}.
Proof.
  intros Hp. unfold write. cbn [obytes opos]. f_equal.
  destruct (Nat.ltb_spec (length l) (p + length c)) as [H|H]; [|reflexivity].
  unfold resize. rewrite (firstn_all2 (n := p + length c)) by lia.
  rewrite firstn_app. replace (p - length l) with 0 by lia.
  rewrite firstn_O, app_nil_r.
  rewrite skipn_all2 by (rewrite length_app, length_map, length_seq; lia).
  now rewrite (skipn_all2 (n := p + length c)) by lia.
Qed.

Lemma write_twice (l : Bytes) (p : nat) (a b : Bytes) :
  p <= length l ->
  write fresh (write fresh {| obytes := l; opos := p |} a) b =
  write fresh {| obytes := l; opos := p |} (a ++ b).
Proof.
  intros Hp.
  assert (Hfp : length (firstn p l) = p) by (rewrite length_firstn; lia).
  rewrite (write_within l p a Hp), (write_within l p (a ++ b) Hp).
  rewrite write_within
    by (rewrite !length_app, Hfp, length_skipn; lia).
  rewrite length_app. f_equal; [|lia].
  rewrite firstn_app, Hfp.
  replace (p + length a - p) with (length a) by lia.
  rewrite (firstn_all2 (n := p + length a)) by lia.
  rewrite firstn_app, firstn_all, Nat.sub_diag, firstn_O, app_nil_r.
  rewrite skipn_app, Hfp, (skipn_all2 (n := p + length a + length b)) by lia.
  cbn [app]. rewrite skipn_app, (skipn_all2 a) by lia. cbn [app].
  rewrite skipn_skipn, <- !app_assoc.
  replace (p + length a + length b - p - length a + (p + length a))
    with (p + (length a + length b)) by lia.
  reflexivity.
Qed.

Lemma write_twice_from_empty (a b : Bytes) :
  obytes (write fresh (write fresh (open_out []) a) b) = a ++ b.
Proof.
  unfold open_out. rewrite write_twice by (cbn; lia).
  rewrite write_within by (cbn; lia).
  cbn [obytes firstn skipn app Nat.add]. rewrite skipn_nil. apply app_nil_r.
Qed.

(** X18: when the position is within the bytes, writing two chunks one
    after the other is writing their concatenation; started on an empty
    buffer, the buffer ends up holding exactly what was written. *)
Theorem write_write (s : InMemoryOStream) (a b : Bytes) :
  (opos s <= length (obytes s) ->
   write fresh (write fresh s a) b = write fresh s (a ++ b)) /\
  obytes (write fresh (write fresh (open_out []) a) b) = a ++ b.
Proof.
  split.
  - destruct s as [l p]. cbn [obytes opos]. apply write_twice.
  - apply write_twice_from_empty.
Qed.

(** X19: what is written to an empty output stream and then read back
    through an input stream over the same bytes comes back chunk by
    chunk, and the read of the last chunk reports the end. *)
Theorem write_then_read (a b : Bytes) :
  let bytes := obytes (write fresh (write fresh (open_out []) a) b) in
  exists s1 s2,
    read (open_in bytes) (length a) = Some (a, 0 <? length b, s1) /\
    read s1 (length b) = Some (b, false, s2) /\
    tellg s2 = tellp (write fresh (write fresh (open_out []) a) b).
Proof.
  cbv zeta. rewrite write_twice_from_empty.
  exists {| ibytes := a ++ b; ipos := length a |},
         {| ibytes := a ++ b; ipos := length a + length b |}.
  split; [|split].
  - rewrite read_prefix by (rewrite length_app; lia).
    rewrite firstn_app, firstn_all, Nat.sub_diag, firstn_O, app_nil_r, length_app.
    repeat f_equal.
    destruct (Nat.ltb_spec 0 (length b)), (Nat.ltb_spec (length a) (length a + length b));
      try reflexivity; lia.
  - unfold read, readMemoryMapped. cbn [ibytes ipos]. rewrite length_app.
    rewrite Nat.leb_refl. cbn [ibytes ipos].
    rewrite length_app, Nat.ltb_irrefl.
    rewrite skipn_app, skipn_all, Nat.sub_diag, skipn_O. cbn [app].
    now rewrite firstn_all.
  - reflexivity.
Qed.

(** X20: [seekp] never shrinks the bytes and keeps the old ones; a
    position up to one past the end changes no byte; a position further
    out grows the bytes to one byte short of it, so that in every case
    the position ends at most one past the end; and a write that
    follows puts its bytes at the position sought. *)
Theorem seekp_effect (s : InMemoryOStream) (pos : nat) (c : Bytes) :
  tellp (seekp fresh s pos) = pos /\
  firstn (length (obytes s)) (obytes (seekp fresh s pos)) = obytes s /\
  (pos <= length (obytes s) + 1 -> obytes (seekp fresh s pos) = obytes s) /\
  (length (obytes s) + 1 < pos -> length (obytes (seekp fresh s pos)) = pos - 1) /\
  opos (seekp fresh s pos) <= length (obytes (seekp fresh s pos)) + 1 /\
  firstn (length c) (skipn pos (obytes (write fresh (seekp fresh s pos) c))) = c.
Proof.
  unfold seekp, tellp. cbn [obytes opos].
  destruct (Nat.ltb_spec (length (obytes s) + 1) pos) as [H|H].
  - rewrite length_resize, resize_keeps by lia.
    repeat split; try reflexivity; try lia.
    apply (write_window {| obytes := resize fresh (obytes s) (pos - 1); opos := pos |} c).
  - rewrite firstn_all.
    repeat split; try reflexivity; try lia.
    apply (write_window {| obytes := obytes s; opos := pos |} c).
Qed.

End Writing.

Lemma write_write_witness :
  write (fun _ => Byte.x00)
    (write (fun _ => Byte.x00)
       {| obytes := [Byte.x00; Byte.x00; Byte.x00]; opos := 1 |} [Byte.x76])
    [Byte.x2f; Byte.x31] =
  write (fun _ => Byte.x00)
    {| obytes := [Byte.x00; Byte.x00; Byte.x00]; opos := 1 |}
    ([Byte.x76] ++ [Byte.x2f; Byte.x31]).
Proof.
  apply (proj1 (write_write (fun _ => Byte.x00)
                  {| obytes := [Byte.x00; Byte.x00; Byte.x00]; opos := 1 |}
                  [Byte.x76] [Byte.x2f; Byte.x31])).
  simpl. lia.
Defined.

Lemma seekp_effect_witness :
  length (obytes (seekp (fun _ => Byte.x00)
                    {| obytes := [Byte.x76]; opos := 1 |} 5)) = 5 - 1.
Proof.
  apply (proj1 (proj2 (proj2 (proj2
    (seekp_effect (fun _ => Byte.x00) {| obytes := [Byte.x76]; opos := 1 |} 5 []))))).
  simpl. lia.
Defined.

End ExrFacts.
